(** * The npm e-mail harvesting script (src/scripts/index.ts)

    A shallow embedding of the script that walks the pages of the npm
    registry search, extracts the publisher and maintainer e-mails of the
    packages found, drops the ones already contacted and writes one file
    of new e-mails per query.

    Conventions of the embedding.
    - A JavaScript [number] that the script uses as a counter (page index,
      offset, retry budget, sizes) is a [nat]; [${n}] in a template literal
      is its decimal numeral.
    - A JavaScript [Set<string>] is a [gset string]. A [Set<Package>] holds
      objects, which JavaScript compares by identity: every object decoded
      from a response gets a fresh reference and the set holds references.
    - The network, the disk and the terminal are an oracle ([Env]); what the
      script does to the outside world is recorded, in order, in a trace of
      events.
    - [async] code runs sequentially here: every [await] is a plain bind of a
      state and exception monad, and a run that ends with an uncaught error
      is a [Throw]. [fs.writeFile] is called without [await] and without a
      handler: the script goes on with the promise dropped. When the write
      fails nobody handles the rejection and the runtime ends the process
      with the error of the write as soon as the script waits for something
      else (a failed write settles before the response to the next request
      arrives), or after the last statement of the script. *)

From stdpp Require Import gmap strings list pretty.

(** ** Data model *)

Record Links := {
  npm : string;
  homepage : string;
  repository : string;
  bugs : string;
}.

(** [publisher] and the elements of [maintainers]. A field the registry left
    out (or sent as [null]) is [None]. *)
Record Person := {
  username : option string;
  email : option string;
}.

(** The [maintainers] field as the script inspects it: absent, present but
    not an array, or an array. *)
Inductive Maintainers :=
| MaintainersAbsent
| MaintainersNotArray
| MaintainersArray (ms : list Person).

Record Package := {
  name : string;
  version : string;
  description : string;
  keywords : list string;
  date : string;
  links : Links;
  publisher : option Person;
  maintainers : Maintainers;
}.

(** A decoded package object: the record and the identity of the object. *)
Record PackageObj := {
  ref : nat;
  val : Package;
}.

(** What one [fetch] followed by [request.json()] can give. *)
Inductive Response :=
| NetworkError (msg : string)      (* [fetch] rejects *)
| ParseError (msg : string)        (* [request.json()] rejects *)
| NoObjects                        (* decoded, [objects] is falsy *)
| Objects (pkgs : list Package).   (* decoded, [objects] is an array *)

(** A thrown [Error]. *)
Record Exn := Error { message : string }.

Inductive Event :=
| EFetch (url : string)
| EWait (ms : nat)
| ELog (msg : string)
| ERender (completed : nat)
| EWriteFile (dir file : string) (lines : list string) (ok : bool).

(** The outside world: the [k]-th [fetch] of the run and its URL give a
    response, the [k]-th write succeeds or not, the input files have a
    content or cannot be read, and stdout is a terminal or not. *)
Record Env := {
  net : nat → string → Response;
  disk : nat → bool;
  readFile : string → option string;
  isatty : bool;
}.

Record State := {
  fetches : nat;         (* calls of [fetch] so far *)
  writes : nat;          (* calls of [fs.writeFile] so far *)
  next_ref : nat;        (* next fresh object reference *)
  trace : list Event;    (* oldest event first *)
}.

Definition init : State :=
  {| fetches := 0; writes := 0; next_ref := 0; trace := [] |}.

(** ** The monad of the script: state and exceptions *)

Inductive Result (A : Type) :=
| Ok (a : A)
| Throw (e : Exn).
Arguments Ok {A} a.
Arguments Throw {A} e.

Definition M (A : Type) : Type := State → Result A * State.

Global Instance M_ret : MRet M := λ A a st, (Ok a, st).

Global Instance M_bind : MBind M := λ A B k m st,
  match m st with
  | (Ok a, st') => k a st'
  | (Throw e, st') => (Throw e, st')
  end.

Definition throw {A} (e : Exn) : M A := λ st, (Throw e, st).

(** [try { m } catch (err) { h err }] *)
Definition try_catch {A} (m : M A) (h : Exn → M A) : M A :=
  λ st, match m st with
        | (Ok a, st') => (Ok a, st')
        | (Throw e, st') => h e st'
        end.

Definition emit (e : Event) : M unit :=
  λ st, (Ok tt, {| fetches := fetches st; writes := writes st;
                   next_ref := next_ref st; trace := trace st ++ [e] |}).

Definition console_log (msg : string) : M unit := emit (ELog msg).

Definition wait (ms : nat) : M unit := emit (EWait ms).

(** [fetch(url)]: the oracle is asked for the response of this attempt; a
    network error is thrown here, the body is read later. *)
Definition fetch (env : Env) (url : string) : M Response :=
  λ st,
    let r := net env (fetches st) url in
    let st' := {| fetches := S (fetches st); writes := writes st;
                  next_ref := next_ref st;
                  trace := trace st ++ [EFetch url] |} in
    match r with
    | NetworkError msg => (Throw (Error msg), st')
    | _ => (Ok r, st')
    end.

(** Decoding gives every package object of the body a fresh reference. *)
Fixpoint alloc (next : nat) (pkgs : list Package) : list PackageObj :=
  match pkgs with
  | [] => []
  | p :: ps => {| ref := next; val := p |} :: alloc (S next) ps
  end.

(** [await request.json()], then the test of [response.objects], then
    [response.objects.map((obj) => obj.package)]. *)
Definition read_objects (r : Response) : M (list PackageObj) :=
  λ st,
    match r with
    | NetworkError msg => (Throw (Error msg), st)
    | ParseError msg => (Throw (Error msg), st)
    | NoObjects => (Throw (Error "No objects returned."), st)
    | Objects pkgs =>
        (Ok (alloc (next_ref st) pkgs),
         {| fetches := fetches st; writes := writes st;
            next_ref := next_ref st + length pkgs; trace := trace st |})
    end.

(** A promise once it has settled. *)
Inductive Promise :=
| Fulfilled
| Rejected (e : Exn).

(** The error of a write that fails (the text is the runtime's). *)
Definition write_error (file : string) : Exn :=
  Error ("cannot write " +:+ file).

(** [fs.writeFile(path.join(dir, file), lines.join("\n"))] without [await]:
    the request and its outcome are recorded and the promise is returned;
    nothing is thrown here. *)
Definition writeFile (env : Env) (dir file : string) (lines : list string)
  : M Promise :=
  λ st,
    let ok := disk env (writes st) in
    (Ok (if ok then Fulfilled else Rejected (write_error file)),
     {| fetches := fetches st; writes := S (writes st);
        next_ref := next_ref st;
        trace := trace st ++ [EWriteFile dir file lines ok] |}).

(** [fetch(url)] up to the point where the script waits for the response:
    the request is sent. *)
Definition send_request (url : string) : M unit :=
  λ st, (Ok tt,
         {| fetches := S (fetches st); writes := writes st;
            next_ref := next_ref st; trace := trace st ++ [EFetch url] |}).

(** ** JavaScript built-ins used by the script *)

Module Js.

(** Truthiness of a value that is a string or missing: [!!e]. *)
Definition truthy (e : option string) : bool :=
  match e with
  | Some s => negb (bool_decide (s = ""))
  | None => false
  end.

(** [l.indexOf(x)]: the first index holding [x], or -1. *)
Fixpoint indexOf_from (i : nat) (l : list string) (x : string) : Z :=
  match l with
  | [] => (-1)%Z
  | y :: l' => if bool_decide (y = x) then Z.of_nat i else indexOf_from (S i) l' x
  end.

Definition indexOf (l : list string) (x : string) : Z := indexOf_from 0 l x.

(** [l.filter((x, i, whole) => f x i whole)] *)
Fixpoint filter_from {A} (f : A → nat → list A → bool) (whole : list A)
    (i : nat) (l : list A) : list A :=
  match l with
  | [] => []
  | x :: l' =>
      if f x i whole
      then x :: filter_from f whole (S i) l'
      else filter_from f whole (S i) l'
  end.

Definition filter {A} (f : A → nat → list A → bool) (l : list A) : list A :=
  filter_from f l 0 l.

(** [l.flatMap(f)] *)
Definition flatMap {A B} (f : A → list B) (l : list A) : list B :=
  flat_map f l.

Definition LF : Ascii.ascii := Ascii.ascii_of_nat 10.
Definition CR : Ascii.ascii := Ascii.ascii_of_nat 13.

Definition newline : string := String LF "".

(** [lines.join("\n")] *)
Definition join_lines (lines : list string) : string :=
  String.concat newline lines.

(** [content.split(/\r?\n/)]: the head of the result is the segment being
    read. *)
Fixpoint split_lines (s : string) : list string :=
  match s with
  | EmptyString => [""]
  | String c rest =>
      if bool_decide (c = LF) then "" :: split_lines rest
      else
        match rest with
        | String d rest' =>
            if bool_decide (c = CR) && bool_decide (d = LF)
            then "" :: split_lines rest'
            else match split_lines rest with
                 | seg :: segs => String c seg :: segs
                 | [] => [String c ""]
                 end
        | EmptyString => [String c ""]
        end
  end.

Definition dquote : string := String (Ascii.ascii_of_nat 34) "".

(** The strings of a list of values that are strings or missing. *)
Definition strings (l : list (option string)) : list string :=
  omap id l.

(** [set.has(x)] *)
Definition has (s : gset string) (x : string) : bool := bool_decide (x ∈ s).

End Js.

(** ** The script *)

Definition IN_PATH : string := "data/in".
Definition OUT_PATH : string := "data/out".

(** [path.join(IN_PATH, "queries.txt")] and
    [path.join(IN_PATH, "sent_emails.txt")] *)
Definition QUERIES_FILE_NAME : string := "data/in/queries.txt".
Definition SENT_EMAILS_FILE_NAME : string := "data/in/sent_emails.txt".

Definition PAGES_PER_QUERY : nat := 40.

Definition liftR {A} (r : Result A) : M A := λ st, (r, st).

Definition buildURL (index : nat) (query : string) (max : nat) : Result string :=
  if bool_decide (250 < max)
  then Throw (Error "Max > 250 - the registry can't handle more than this.")
  else Ok ("https://registry.npmjs.com/-/v1/search?size=" +:+ pretty max
           +:+ "&popularity=1.0&quality=0.0&maintenance=0.0&text=" +:+ query
           +:+ "&from=" +:+ pretty index).

(** [buildURL(page * 250, query)], the third argument taking its default. *)
Definition pageURL (page : nat) (query : string) : Result string :=
  buildURL (page * 250) query 250.

Fixpoint getPage (env : Env) (page : nat) (query : string) (retries : nat)
  : M (list PackageObj) :=
  match retries with
  | 0 => throw (Error "retries over")
  | S retries_minus_1 =>
      try_catch
        (url ← liftR (pageURL page query);
         request ← fetch env url;
         wait 800;;
         read_objects request)
        (λ err,
           wait 5000;;
           console_log ("retry " +:+ message err);;
           getPage env page query retries_minus_1)
  end.

(** [progress.render(completed)] on a terminal, a line of text otherwise. *)
Definition report_progress (env : Env) (completed : nat) : M unit :=
  if isatty env
  then emit (ERender completed)
  else console_log ("Completed " +:+ pretty completed +:+ " of "
                    +:+ pretty PAGES_PER_QUERY +:+ " requests.").

(** The [for] loop of [getPackages]: [todo] is [PAGES_PER_QUERY - i], the
    number of iterations left; [getPage] is called with its default budget. *)
Fixpoint getPackages_loop (env : Env) (query : string) (todo i completed : nat)
    (packages : list PackageObj) : M (list PackageObj) :=
  match todo with
  | 0 => mret packages
  | S todo' =>
      fetchedPackages ← getPage env i query 2;
      let completed := completed + 1 in
      report_progress env completed;;
      getPackages_loop env query todo' (i + 1) completed
        (packages ++ fetchedPackages)
  end.

Definition getPackages (env : Env) (query : string) : M (list PackageObj) :=
  console_log ("Fetching packages for query " +:+ Js.dquote +:+ query
               +:+ Js.dquote +:+ "...");;
  getPackages_loop env query PAGES_PER_QUERY 0 0 [].

(** [getPackages(query)] up to the first point where the script waits for
    the outside world: the announcement, then the request for page 0 (the
    first [await] of [getPage] in the first iteration of the loop). *)
Definition getPackages_until_response (query : string) : M unit :=
  console_log ("Fetching packages for query " +:+ Js.dquote +:+ query
               +:+ Js.dquote +:+ "...");;
  url ← liftR (pageURL 0 query);
  send_request url.

Definition getEmailsFromPackage (pkg : Package) : list string :=
  let emails : list string := [] in
  let emails :=
    match publisher pkg with
    | Some pub =>
        match email pub with
        | Some e => if Js.truthy (Some e) then emails ++ [e] else emails
        | None => emails
        end
    | None => emails
    end in
  let emails :=
    match maintainers pkg with
    | MaintainersArray ms =>
        emails ++ Js.strings (List.filter Js.truthy (map email ms))
    | MaintainersNotArray | MaintainersAbsent => emails
    end in
  emails.

(** The [filter] of the script on the flattened e-mails of a query: an
    e-mail is kept at its first occurrence in the batch, when it was not sent
    before and was not written for an earlier query. *)
Definition keep_new (sentEmailsSet newEmailsSet : gset string)
    (unfiltered : list string) : list string :=
  Js.filter
    (λ email i unfiltered,
       bool_decide (Js.indexOf unfiltered email = Z.of_nat i)
       && negb (Js.has sentEmailsSet email)
       && negb (Js.has newEmailsSet email))
    unfiltered.

Definition newEmails_of (sentEmailsSet newEmailsSet : gset string)
    (packages : list PackageObj) : list string :=
  keep_new sentEmailsSet newEmailsSet
    (Js.flatMap (λ pkg, getEmailsFromPackage (val pkg)) packages).

(** [for (const x of xs) set.add(x)] *)
Definition add_all `{Countable K} (set : gset K) (xs : list K) : gset K :=
  foldl (λ s x, s ∪ {[x]}) set xs.

(** [`${query}_new_emails.txt`] *)
Definition output_file (query : string) : string := query +:+ "_new_emails.txt".

(** The loop over the queries, with the two module-level sets it updates.
    The promise of the write is dropped. When it is rejected and a query
    follows, the script still enters [getPackages] for that query and the
    run ends, with the error of the write, while the script waits for the
    first response. When no query follows, the loop is left with the rejected
    promise. *)
Fixpoint main_loop (env : Env) (sentEmailsSet : gset string)
    (queries : list string) (newEmailsSet : gset string)
    (allPackagesSet : gset nat) : M (gset string * gset nat * Promise) :=
  match queries with
  | [] => mret (newEmailsSet, allPackagesSet, Fulfilled)
  | query :: queries' =>
      packages ← getPackages env query;
      let allPackagesSet := add_all allPackagesSet (ref <$> packages) in
      let newEmails := newEmails_of sentEmailsSet newEmailsSet packages in
      written ← writeFile env OUT_PATH (output_file query) newEmails;
      let newEmailsSet := add_all newEmailsSet newEmails in
      match written, queries' with
      | Fulfilled, _ =>
          main_loop env sentEmailsSet queries' newEmailsSet allPackagesSet
      | Rejected err, next :: _ =>
          getPackages_until_response next;; throw err
      | Rejected err, [] =>
          mret (newEmailsSet, allPackagesSet, Rejected err)
      end
  end.

(** [await fs.readFile(file, "utf8").then((content) => content.split(LINE_PATTERN))];
    a file that cannot be read ends the run (the text of the error is the
    runtime's). *)
Definition read_lines (env : Env) (file : string) : M (list string) :=
  match readFile env file with
  | Some content => mret (Js.split_lines content)
  | None => throw (Error ("cannot read " +:+ file))
  end.

(** The numbers of the closing message. *)
Record Summary := {
  new_emails : nat;       (* [newEmailsSet.size] *)
  files : nat;            (* [queries.length] *)
  unique_packages : nat;  (* [allPackagesSet.size] *)
}.

Definition main (env : Env) : M Summary :=
  queries ← read_lines env QUERIES_FILE_NAME;
  sentEmails ← read_lines env SENT_EMAILS_FILE_NAME;
  console_log (pretty (length sentEmails) +:+ " emails sent");;
  let sentEmailsSet : gset string := list_to_set sentEmails in
  '(newEmailsSet, allPackagesSet, written) ←
    main_loop env sentEmailsSet queries ∅ ∅;
  console_log ("Wrote " +:+ pretty (size newEmailsSet) +:+ " new emails to "
               +:+ pretty (length queries) +:+ " files in data/out pulled from "
               +:+ pretty (size allPackagesSet) +:+ " unique packages.");;
  match written with
  | Fulfilled =>
      mret {| new_emails := size newEmailsSet; files := length queries;
              unique_packages := size allPackagesSet |}
  | Rejected err => throw err
  end.

(** A run of the script from its start. *)
Definition run (env : Env) : Result Summary * State := main env init.

(** ** The e-mail extractor in the words of its description *)

(** A person's e-mail when it is there and not empty. *)
Definition usable_email (p : Person) : list string :=
  match email p with
  | Some e => if decide (e = "") then [] else [e]
  | None => []
  end.

(** The maintainers listed, none when the field is absent or not an array. *)
Definition listed_maintainers (pkg : Package) : list Person :=
  match maintainers pkg with
  | MaintainersArray ms => ms
  | MaintainersNotArray | MaintainersAbsent => []
  end.

(** Publisher first, then the maintainers in their order. *)
Definition extractEmails_spec (pkg : Package) : list string :=
  from_option usable_email [] (publisher pkg)
  ++ flat_map usable_email (listed_maintainers pkg).

(** The URL of a page in the words of its description. *)
Definition registry_base : string := "https://registry.npmjs.com/-/v1/search".

Definition page_url_spec (p : nat) (q : string) : string :=
  registry_base +:+ "?size=250&popularity=1.0&quality=0.0&maintenance=0.0&text="
  +:+ q +:+ "&from=" +:+ pretty (p * 250).

(** ** Attempts of the retrying fetch *)

(** A response that lets [getPage] return. *)
Definition succeeds (r : Response) : bool :=
  match r with
  | Objects _ => true
  | NetworkError _ | ParseError _ | NoObjects => false
  end.

(** The state after a failed attempt: the fetch, the throttle when the
    response arrived, the back-off and the log line. *)
Definition after_failure (url : string) (r : Response) (st : State) : State :=
  let tr := trace st ++ [EFetch url] in
  let tr := match r with NetworkError _ => tr | _ => tr ++ [EWait 800] end in
  let msg := match r with
             | NetworkError msg | ParseError msg => msg
             | _ => "No objects returned."
             end in
  {| fetches := S (fetches st); writes := writes st; next_ref := next_ref st;
     trace := (tr ++ [EWait 5000]) ++ [ELog ("retry " +:+ msg)] |}.

(** The state after a successful attempt that decoded [pkgs]. *)
Definition after_success (url : string) (pkgs : list Package) (st : State)
  : State :=
  {| fetches := S (fetches st); writes := writes st;
     next_ref := next_ref st + length pkgs;
     trace := (trace st ++ [EFetch url]) ++ [EWait 800] |}.

(** ** The page walk in the words of its description *)

(** The state once the progress of [completed] pages has been reported. *)
Definition progressed (env : Env) (completed : nat) (st : State) : State :=
  (report_progress env completed st).2.

(** [Fetched env query lo hi st pages st']: from the state [st] the pages
    [lo], ..., [hi - 1] were fetched one after the other, each fetch
    returned, [pages] are their package lists in that order and [st'] is the
    state after the progress report of the last one. *)
Inductive Fetched (env : Env) (query : string)
  : nat → nat → State → list (list PackageObj) → State → Prop :=
| Fetched_nil lo st :
    Fetched env query lo lo st [] st
| Fetched_cons lo hi st fetched st1 pages st2 :
    getPage env lo query 2 st = (Ok fetched, st1) →
    Fetched env query (S lo) hi (progressed env (S lo) st1) pages st2 →
    Fetched env query lo hi st (fetched :: pages) st2.

(** The state once [getPackages] has announced the query. *)
Definition announced (query : string) (st : State) : State :=
  (console_log ("Fetching packages for query " +:+ Js.dquote +:+ query
                +:+ Js.dquote +:+ "...") st).2.

(** ** The deduplicator and the output files *)

(** What the loop over the queries does with the e-mails extracted for one
    query: it filters them and then adds the ones it kept to [newEmailsSet],
    the set it shares with the queries that follow. *)
Definition Deduplicator (sentEmailsSet : gset string) (extracted : list string)
    (newEmailsSet : gset string) : list string * gset string :=
  let newEmails := keep_new sentEmailsSet newEmailsSet extracted in
  (newEmails, add_all newEmailsSet newEmails).

(** The files a trace asks to write, in order: the name and the e-mails
    that are joined into the content. *)
Definition outputs (tr : list Event) : list (string * list string) :=
  omap (λ ev, match ev with
              | EWriteFile _ file lines _ => Some (file, lines)
              | _ => None
              end) tr.

(** The set of sent e-mails a run loads at startup. *)
Definition loaded_sentEmailsSet (env : Env) : gset string :=
  match readFile env SENT_EMAILS_FILE_NAME with
  | Some content => list_to_set (Js.split_lines content)
  | None => ∅
  end.

(** [Fresh_outputs sent seen outs]: no e-mail of the outputs [outs] is
    empty, is in [sent], is in [seen] or is in an earlier output of
    [outs]. *)
Inductive Fresh_outputs (sent : gset string)
  : gset string → list (string * list string) → Prop :=
| Fresh_outputs_nil seen :
    Fresh_outputs sent seen []
| Fresh_outputs_cons seen file lines outs :
    (∀ e, e ∈ lines → e ≠ "" ∧ (e ∉ sent) ∧ (e ∉ seen)) →
    Fresh_outputs sent (seen ∪ list_to_set lines) outs →
    Fresh_outputs sent seen ((file, lines) :: outs).

(** The write requests of a trace with their outcomes, in order. *)
Definition writes_of (tr : list Event) : list (string * list string * bool) :=
  omap (λ ev, match ev with
              | EWriteFile _ file lines ok => Some (file, lines, ok)
              | _ => None
              end) tr.

(** A computation that asks for no write. *)
Definition quiet {A} (m : M A) : Prop :=
  ∀ st, writes_of (trace (m st).2) = writes_of (trace st).

(** The queries a run loads at startup. *)
Definition loaded_queries (env : Env) : list string :=
  match readFile env QUERIES_FILE_NAME with
  | Some content => Js.split_lines content
  | None => []
  end.

(** ** The count of unique packages *)

(** The count of unique packages as the sibling scripts of the repository
    compute it: [new Set(packages.map((pkg) => pkg.name)).size]. *)
Definition unique_names (packages : list Package) : nat :=
  size (list_to_set (name <$> packages) : gset string).

(** ** Writes that fail *)

(** The same world with the disk [d]. *)
Definition with_disk (env : Env) (d : nat → bool) : Env :=
  {| net := net env; disk := d; readFile := readFile env;
     isatty := isatty env |}.

(** The lines a trace prints with [console.log]. *)
Definition console (tr : list Event) : list string :=
  omap (λ ev, match ev with ELog msg => Some msg | _ => None end) tr.

(** The files whose write failed, in order. *)
Definition failed_writes (tr : list Event) : list string :=
  omap (λ ev, match ev with
              | EWriteFile _ file _ false => Some file
              | _ => None
              end) tr.

(** The line that announces a query. *)
Definition announcement (query : string) : string :=
  "Fetching packages for query " +:+ Js.dquote +:+ query +:+ Js.dquote +:+ "...".


(** The state once a write has been asked for, with its outcome. *)
Definition write_requested (dir file : string) (lines : list string)
    (ok : bool) (st : State) : State :=
  {| fetches := fetches st; writes := S (writes st); next_ref := next_ref st;
     trace := trace st ++ [EWriteFile dir file lines ok] |}.

(** The state once the script has announced the query [next] and sent the
    request for its first page. *)
Definition awaiting_first_response (next : string) (st : State) : State :=
  {| fetches := S (fetches st); writes := writes st; next_ref := next_ref st;
     trace := (trace st ++ [ELog (announcement next)])
              ++ [EFetch (page_url_spec 0 next)] |}.


(** ** Worlds and packages of the examples *)

Definition no_links : Links :=
  {| npm := ""; homepage := ""; repository := ""; bugs := "" |}.

Definition person (e : option string) : Person :=
  {| username := Some "dev"; email := e |}.

Definition package (n : string) (pub : option Person) (ms : Maintainers)
  : Package :=
  {| name := n; version := "1.0.0"; description := ""; keywords := [];
     date := ""; links := no_links; publisher := pub; maintainers := ms |}.

Definition left_pad : Package :=
  package "left-pad" (Some (person (Some "a@x.com")))
    (MaintainersArray [person (Some "b@x.com"); person (Some "");
                       person None; person (Some "b@x.com")]).

(** No request ever gets through. *)
Definition offline : Env :=
  {| net := λ _ _, NetworkError "connection refused";
     disk := λ _, true; readFile := λ _, None; isatty := false |}.

(** The first two requests fail, every later one returns [left_pad]. *)
Definition flaky : Env :=
  {| net := λ k _, if bool_decide (k < 2) then NoObjects else Objects [left_pad];
     disk := λ _, true; readFile := λ _, None; isatty := false |}.

(** Two queries, "foo" and "bar"; "a@x.com" was sent before and the file of
    sent e-mails ends with a newline. The first page of "foo" holds
    [left_pad] and a package of "c@x.com"; the first page of "bar" holds
    that package again and one of "d@x.com"; the other pages are empty. *)
Definition two_queries : Env :=
  {| net := λ k _,
       if bool_decide (k = 0) then
         Objects [left_pad;
                  package "pad" (Some (person (Some "c@x.com"))) MaintainersAbsent]
       else if bool_decide (k = 40) then
         Objects [package "pad" (Some (person (Some "c@x.com"))) MaintainersAbsent;
                  package "rpad" None (MaintainersArray [person (Some "d@x.com")])]
       else Objects [];
     disk := λ _, true;
     readFile := λ file,
       if bool_decide (file = QUERIES_FILE_NAME)
       then Some ("foo" +:+ Js.newline +:+ "bar")
       else Some ("a@x.com" +:+ Js.newline);
     isatty := true |}.

(** One query, "foo"; the registry lists [left_pad] on the first page and
    again on the second; the other pages are empty. *)
Definition repeated_package : Env :=
  {| net := λ k _, if bool_decide (k < 2) then Objects [left_pad] else Objects [];
     disk := λ _, true;
     readFile := λ file,
       if bool_decide (file = QUERIES_FILE_NAME)
       then Some "foo" else Some "a@x.com";
     isatty := true |}.

(** The world of [two_queries] where the first write fails. *)
Definition first_write_fails : Env :=
  with_disk two_queries (λ k, negb (bool_decide (k = 0))).

(** The world of [two_queries] where the second and last write fails. *)
Definition last_write_fails : Env :=
  with_disk two_queries (λ k, bool_decide (k = 0)).


(** ** Lines of a file *)

(** The number of occurrences of a character in a string. *)
Fixpoint count_char (c : Ascii.ascii) (s : string) : nat :=
  match s with
  | EmptyString => 0
  | String a rest => (if bool_decide (a = c) then 1 else 0) + count_char c rest
  end.

(** The last character of the string is [c]. *)
Fixpoint ends_with (c : Ascii.ascii) (s : string) : bool :=
  match s with
  | EmptyString => false
  | String a EmptyString => bool_decide (a = c)
  | String _ rest => ends_with c rest
  end.

(** The content with every carriage return that stands before a line feed
    removed. *)
Fixpoint crlf_to_lf (s : string) : string :=
  match s with
  | EmptyString => EmptyString
  | String c rest =>
      match rest with
      | String d rest' =>
          if bool_decide (c = Js.CR) && bool_decide (d = Js.LF)
          then String Js.LF (crlf_to_lf rest')
          else String c (crlf_to_lf rest)
      | EmptyString => String c EmptyString
      end
  end.

(** A string that can be one line of a file written with [join("\n")] and
    read back with [split(/\r?\n/)]. *)
Definition plain_line (l : string) : Prop :=
  count_char Js.LF l = 0 ∧ ends_with Js.CR l = false.

(** ** The filter as one pass *)

(** One pass over the batch with the set of the e-mails already written: an
    e-mail that was sent or written is skipped, any other is kept and counts
    as written from there on. *)
Fixpoint dedupe_pass (sent seen : gset string) (l : list string) : list string :=
  match l with
  | [] => []
  | e :: l' =>
      if bool_decide (e ∈ sent ∨ e ∈ seen)
      then dedupe_pass sent seen l'
      else e :: dedupe_pass sent ({[e]} ∪ seen) l'
  end.

(** ** Offsets the script computes exactly *)

(** [Number.MAX_SAFE_INTEGER]: up to it every integer is a JavaScript
    number, and the product [page * 250] of [pageURL] is the exact one. *)
Definition MAX_SAFE_INTEGER : N := 9007199254740991.

Definition exact_offset (page : nat) : Prop :=
  (N.of_nat page * 250 ≤ MAX_SAFE_INTEGER)%N.

(** ** Requests and delays of a trace *)

(** The URLs a trace has fetched, in order. *)
Definition fetched_urls (tr : list Event) : list string :=
  omap (λ ev, match ev with EFetch url => Some url | _ => None end) tr.

(** The milliseconds a trace has asked to wait, in all. *)
Definition waited (tr : list Event) : N :=
  foldr (λ ev total, match ev with
                     | EWait ms => N.of_nat ms + total
                     | _ => total
                     end)%N 0%N tr.

(** The number of e-mails in a list of outputs. *)
Definition lines_written (outs : list (string * list string)) : nat :=
  sum_list_with (λ out, length out.2) outs.

(** Two queries, "foo" and "bar"; every page of "foo" holds [left_pad], the
    registry is down when "bar" is fetched. *)
Definition second_query_offline : Env :=
  {| net := λ k _,
       if bool_decide (k < 40) then Objects [left_pad]
       else NetworkError "connection refused";
     disk := λ _, true;
     readFile := λ file,
       if bool_decide (file = QUERIES_FILE_NAME)
       then Some ("foo" +:+ Js.newline +:+ "bar")
       else Some "a@x.com";
     isatty := true |}.

(** ** Escaping a description for HTML *)

Definition AMP : Ascii.ascii := Ascii.ascii_of_nat 38.
Definition LT : Ascii.ascii := Ascii.ascii_of_nat 60.
Definition GT : Ascii.ascii := Ascii.ascii_of_nat 62.
Definition QUOT : Ascii.ascii := Ascii.ascii_of_nat 34.
Definition APOS : Ascii.ascii := Ascii.ascii_of_nat 39.

(** [s.replace(/c/g, replacement)] for a pattern that is the character [c]
    and a replacement without [$]. *)
Fixpoint replace_all (c : Ascii.ascii) (replacement : string) (s : string)
  : string :=
  match s with
  | EmptyString => EmptyString
  | String a rest =>
      if bool_decide (a = c)
      then replacement +:+ replace_all c replacement rest
      else String a (replace_all c replacement rest)
  end.

Definition escapeHTML (unsafe : string) : string :=
  replace_all APOS "&#039;"
    (replace_all QUOT "&quot;"
       (replace_all GT "&gt;"
          (replace_all LT "&lt;"
             (replace_all AMP "&amp;" unsafe)))).

(** The entity of a character, or the character itself. *)
Definition escape_char (c : Ascii.ascii) : string :=
  if bool_decide (c = AMP) then "&amp;"
  else if bool_decide (c = LT) then "&lt;"
  else if bool_decide (c = GT) then "&gt;"
  else if bool_decide (c = QUOT) then "&quot;"
  else if bool_decide (c = APOS) then "&#039;"
  else String c EmptyString.

(** Every character replaced by its entity, in one pass. *)
Fixpoint escape_map (s : string) : string :=
  match s with
  | EmptyString => EmptyString
  | String c rest => escape_char c +:+ escape_map rest
  end.

(** The number of characters of [s] that have an entity. *)
Definition count_special (s : string) : nat :=
  count_char AMP s + count_char LT s + count_char GT s
  + count_char QUOT s + count_char APOS s.

(** ** The script that lists the top packages (index.ts, second part)

    The earlier script of the file fetches the 40 pages of one fixed search,
    fetches what is missing to 10000 packages and writes them to [raw.json]
    and [src/PACKAGES.md]. [JSON.stringify] and the SHA-256 digest are
    parameters of the embedding. *)

Module TopPackages.

Section Script.
Context (json_stringify : list Package → string).
Context (sha256_hex : string → string).

Definition requestAmount : nat := 40.

Definition expected : nat := 100 * 100.

Definition buildURL (index max : nat) : Result string :=
  if bool_decide (250 < max)
  then Throw (Error "Max > 250 - the registry can't handle more than this.")
  else Ok ("https://registry.npmjs.com/-/v1/search?size=" +:+ pretty max
           +:+ "&popularity=1.0&quality=0.0&maintenance=0.0&text=boost-exact:false&from="
           +:+ pretty index).

Definition pageURL (page : nat) : Result string := buildURL (page * 250) 250.

(** [const { objects } = await request.json()] and
    [objects.map((obj) => obj.package)]: without [objects] the call of [map]
    throws (the text of the error is the runtime's). *)
Definition read_objects (r : Response) : M (list PackageObj) :=
  λ st,
    match r with
    | NetworkError msg => (Throw (Error msg), st)
    | ParseError msg => (Throw (Error msg), st)
    | NoObjects => (Throw (Error "objects is undefined"), st)
    | Objects pkgs =>
        (Ok (alloc (next_ref st) pkgs),
         {| fetches := fetches st; writes := writes st;
            next_ref := next_ref st + length pkgs; trace := trace st |})
    end.

Fixpoint getPage (env : Env) (page retries : nat) : M (list PackageObj) :=
  match retries with
  | 0 => throw (Error "retries over")
  | S retries_minus_1 =>
      try_catch
        (url ← liftR (pageURL page);
         request ← fetch env url;
         read_objects request)
        (λ err,
           console_log ("retry " +:+ message err);;
           getPage env page retries_minus_1)
  end.

(** The [for] loop. Its body declares [const packages = await getPage(i)]:
    inside the body [packages] is the array of the page, and
    [packages.push(...packages)] appends that array to itself; the array
    [packages] of the script, declared before the loop, is not touched. *)
Fixpoint fetch_loop (env : Env) (todo i completed : nat)
    (packages : list PackageObj) : M (list PackageObj) :=
  match todo with
  | 0 => mret packages
  | S todo' =>
      page_packages ← getPage env i 2;
      let completed := completed + 1 in
      report_progress env completed;;
      let page_packages := page_packages ++ page_packages in
      fetch_loop env todo' (i + 1) completed packages
  end.

(** [await Deno.writeFile(file, content)]: a write that fails throws (the
    text of the error is the runtime's). *)
Definition deno_writeFile (env : Env) (dir file content : string) : M unit :=
  λ st,
    let ok := disk env (writes st) in
    let st' := {| fetches := fetches st; writes := S (writes st);
                  next_ref := next_ref st;
                  trace := trace st ++ [EWriteFile dir file [content] ok] |} in
    if ok then (Ok tt, st') else (Throw (Error ("cannot write " +:+ file)), st').

Definition optionallyFormat (arg label : string) : string :=
  if bool_decide (arg = "") then ""
  else " ([" +:+ label +:+ "](" +:+ arg +:+ "))".

Definition md_entry (i : nat) (pkg : Package) : string :=
  pretty (i + 1) +:+ ". [" +:+ name pkg +:+ "](" +:+ npm (links pkg) +:+ ")"
  +:+ Js.newline
  +:+ "    - " +:+ escapeHTML (description pkg) +:+ Js.newline
  +:+ "    - v" +:+ version pkg +:+ " "
  +:+ optionallyFormat (homepage (links pkg)) "homepage"
  +:+ optionallyFormat (repository (links pkg)) "repository".

Definition mdContent (packages : list Package) : string :=
  "# Packages" +:+ Js.newline +:+ Js.newline
  +:+ "Ordered list of top 10000 NPM packages:" +:+ Js.newline +:+ Js.newline
  +:+ Js.join_lines (imap md_entry packages) +:+ Js.newline.

Definition main (env : Env) : M unit :=
  packages ← fetch_loop env requestAmount 0 0 [];
  packages ←
    (if bool_decide (length packages ≠ expected) then
       let remaining := expected - length packages in
       fetchURL ← liftR (buildURL (length packages) remaining);
       console_log ("Fetching remaining " +:+ pretty remaining
                    +:+ " packages from " +:+ fetchURL +:+ "...");;
       request ← fetch env fetchURL;
       objects ← read_objects request;
       console_log ("Fetched an extra " +:+ pretty (length objects)
                    +:+ " packages.");;
       mret (packages ++ objects)
     else mret packages);
  let packagesString := json_stringify (val <$> packages) in
  deno_writeFile env "." "raw.json" packagesString;;
  deno_writeFile env "." "raw.json.hash" (sha256_hex packagesString);;
  deno_writeFile env "./src" "PACKAGES.md" (mdContent (val <$> packages));;
  (if bool_decide (length packages = expected) then mret tt
   else console_log
          "Assertion failed: Expected 10000 packages. Did the remainder function fail?");;
  console_log ("Wrote " +:+ pretty (length packages)
               +:+ " packages to ./raw.json and ./src/PACKAGES.md. with "
               +:+ pretty (size (list_to_set (name ∘ val <$> packages) : gset string))
               +:+ " unique packages.").

End Script.

End TopPackages.

(** ** The script for one fixed query (the variant of the script that
    searches "js" only)

    It reads the sent e-mails, fetches the 40 pages of the search "js",
    writes the new e-mails to [data/new_emails.txt] and then the packages to
    [raw.json] and [src/PACKAGES.md]. The first write is not awaited: when
    it fails, the run ends with its error while the script waits for the
    write of [raw.json], which it has started by then (the failure is taken
    to arrive before that write is over). *)

Module SingleQuery.

Section Script.
Context (json_stringify : list Package → string).
Context (sha256_hex : string → string).

Definition sentEmailsFileName : string := "data/sent_emails.txt".

Definition requestAmount : nat := 40.

(** [content.split("\n")]: the head of the result is the segment being
    read. *)
Fixpoint split_on_LF (s : string) : list string :=
  match s with
  | EmptyString => [""]
  | String c rest =>
      if bool_decide (c = Js.LF) then "" :: split_on_LF rest
      else match split_on_LF rest with
           | seg :: segs => String c seg :: segs
           | [] => [String c ""]
           end
  end.

Definition buildURL (index max : nat) : Result string :=
  if bool_decide (250 < max)
  then Throw (Error "Max > 250 - the registry can't handle more than this.")
  else Ok ("https://registry.npmjs.com/-/v1/search?size=" +:+ pretty max
           +:+ "&popularity=1.0&quality=0.0&maintenance=0.0&text=js&from="
           +:+ pretty index).

Definition pageURL (page : nat) : Result string := buildURL (page * 250) 250.

Fixpoint getPage (env : Env) (page retries : nat) : M (list PackageObj) :=
  match retries with
  | 0 => throw (Error "retries over")
  | S retries_minus_1 =>
      try_catch
        (url ← liftR (pageURL page);
         request ← fetch env url;
         wait 800;;
         read_objects request)
        (λ err,
           wait 5000;;
           console_log ("retry " +:+ message err);;
           getPage env page retries_minus_1)
  end.

(** The [for] loop at the top level of the script. *)
Fixpoint fetch_loop (env : Env) (todo i completed : nat)
    (packages : list PackageObj) : M (list PackageObj) :=
  match todo with
  | 0 => mret packages
  | S todo' =>
      fetchedPackages ← getPage env i 2;
      let completed := completed + 1 in
      report_progress env completed;;
      fetch_loop env todo' (i + 1) completed (packages ++ fetchedPackages)
  end.

(** The filter of this variant: first occurrence and not sent before. *)
Definition keep_unsent (sentEmailsSet : gset string) (unfiltered : list string)
  : list string :=
  Js.filter
    (λ email i unfiltered,
       bool_decide (Js.indexOf unfiltered email = Z.of_nat i)
       && negb (Js.has sentEmailsSet email))
    unfiltered.

Definition main (env : Env) : M unit :=
  sentEmails ←
    match readFile env sentEmailsFileName with
    | Some content => mret (split_on_LF content)
    | None => throw (Error ("cannot read " +:+ sentEmailsFileName))
    end;
  console_log (pretty (length sentEmails) +:+ " emails sent");;
  let sentEmailsSet : gset string := list_to_set sentEmails in
  packages ← fetch_loop env requestAmount 0 0 [];
  let newEmails :=
    keep_unsent sentEmailsSet
      (Js.flatMap (λ pkg, getEmailsFromPackage (val pkg)) packages) in
  written ← writeFile env "data" "new_emails.txt" newEmails;
  let packagesString := json_stringify (val <$> packages) in
  match written with
  | Fulfilled => mret tt
  | Rejected err =>
      writeFile env "." "raw.json" [packagesString];; throw err
  end;;
  TopPackages.deno_writeFile env "." "raw.json" packagesString;;
  TopPackages.deno_writeFile env "." "raw.json.hash" (sha256_hex packagesString);;
  TopPackages.deno_writeFile env "./src" "PACKAGES.md"
    (TopPackages.mdContent (val <$> packages));;
  (if bool_decide (length packages = TopPackages.expected) then mret tt
   else console_log
          "Assertion failed: Expected 10000 packages. Did the remainder function fail?");;
  console_log ("Wrote " +:+ pretty (length packages)
               +:+ " packages to ./raw.json and ./src/PACKAGES.md. with "
               +:+ pretty (size (list_to_set (name ∘ val <$> packages) : gset string))
               +:+ " unique packages.").

End Script.

End SingleQuery.

(** ** Two computations that fetch alike *)

(** Two states in which the next request and the next decoded object get
    the same numbers. *)
Definition same_net (st1 st2 : State) : Prop :=
  fetches st1 = fetches st2 ∧ next_ref st1 = next_ref st2.

(** Two computations that return the same from such states and leave such
    states. *)
Definition alike {A} (m1 m2 : M A) : Prop :=
  ∀ st1 st2, same_net st1 st2 →
    (m1 st1).1 = (m2 st2).1 ∧ same_net (m1 st1).2 (m2 st2).2.

(** The only query is "js", the sent e-mails are in both places. *)
Definition only_js : Env :=
  {| net := λ k _,
       if bool_decide (k = 0) then
         Objects [left_pad;
                  package "pad" (Some (person (Some "c@x.com"))) MaintainersAbsent]
       else Objects [];
     disk := λ _, true;
     readFile := λ file,
       if bool_decide (file = QUERIES_FILE_NAME) then Some "js"
       else Some ("a@x.com" +:+ Js.newline +:+ "z@x.com");
     isatty := true |}.

(** A computation that leaves the earlier write requests of the trace in
    place. *)
Definition extends {A} (m : M A) : Prop :=
  ∀ st, ∃ more, outputs (trace (m st).2) = outputs (trace st) ++ more.

(** A computation that returns and asks to write the files [files], in this
    order. *)
Definition returns_writing {A} (m : M A) (files : list string) : Prop :=
  ∀ st, ∃ a, (m st).1 = Ok a
             ∧ (outputs (trace (m st).2)).*1
               = (outputs (trace st)).*1 ++ files.
(** ** Tactics *)

(** Run the first bind of the goal. *)
Ltac bind_step := unfold mbind at 1, M_bind at 1.

(** Close a membership in a set or an equality of closed terms by
    evaluation. *)
Ltac by_evaluation :=
  first [ by vm_compute | by apply (bool_decide_unpack _); vm_compute ].

(** ** Facts on the built-ins *)

Example split_lines_trailing_newline :
  Js.split_lines ("a@x.com" +:+ Js.newline +:+ "b@x.com" +:+ String Js.CR Js.newline)
  = ["a@x.com"; "b@x.com"; ""].
Proof. reflexivity. Qed.

Example indexOf_first :
  Js.indexOf ["a"; "b"; "b"] "b" = 1%Z ∧ Js.indexOf ["a"] "c" = (-1)%Z.
Proof. split; reflexivity. Qed.

Lemma truthy_Some (s : string) : Js.truthy (Some s) = true ↔ s ≠ "".
Proof.
  unfold Js.truthy. rewrite negb_true_iff, bool_decide_eq_false. done.
Qed.

Lemma strings_filter_truthy (ms : list Person) :
  Js.strings (List.filter Js.truthy (map email ms)) = flat_map usable_email ms.
Proof.
  unfold Js.strings.
  induction ms as [|m ms IH]; [done|].
  cbn [map List.filter flat_map]. unfold usable_email at 1.
  destruct (email m) as [e|] eqn:He.
  - destruct (decide (e = "")) as [->|Hne].
    + cbn. exact IH.
    + apply truthy_Some in Hne. rewrite Hne. cbn. f_equal. exact IH.
  - cbn. exact IH.
Qed.

Lemma usable_email_nonempty (p : Person) (e : string) :
  e ∈ usable_email p → e ≠ "".
Proof.
  unfold usable_email. destruct (email p) as [s|]; [|by intros ?%elem_of_nil].
  destruct (decide (s = "")); [by intros ?%elem_of_nil|].
  intros ->%list_elem_of_singleton. done.
Qed.

Lemma getEmailsFromPackage_spec (pkg : Package) :
  getEmailsFromPackage pkg = extractEmails_spec pkg.
Proof.
  unfold getEmailsFromPackage, extractEmails_spec, listed_maintainers.
  assert (Hpub :
    match publisher pkg with
    | Some pub =>
        match email pub with
        | Some e => if Js.truthy (Some e) then [] ++ [e] else []
        | None => []
        end
    | None => []
    end = from_option usable_email [] (publisher pkg)).
  { destruct (publisher pkg) as [pub|]; [|done]. cbn [from_option].
    unfold usable_email.
    destruct (email pub) as [e|]; [|done].
    destruct (decide (e = "")) as [->|Hne]; [done|].
    apply truthy_Some in Hne. by rewrite Hne. }
  rewrite Hpub.
  destruct (maintainers pkg); cbn [flat_map].
  - by rewrite app_nil_r.
  - by rewrite app_nil_r.
  - by rewrite strings_filter_truthy.
Qed.

Lemma getEmailsFromPackage_nonempty (pkg : Package) (e : string) :
  e ∈ getEmailsFromPackage pkg → e ≠ "".
Proof.
  rewrite getEmailsFromPackage_spec. unfold extractEmails_spec.
  intros [Hin|Hin]%elem_of_app.
  - destruct (publisher pkg) as [pub|]; cbn in Hin.
    + by eapply usable_email_nonempty.
    + by apply elem_of_nil in Hin.
  - apply list_elem_of_In, in_flat_map in Hin as (p & _ & Hin).
    apply list_elem_of_In in Hin. by eapply usable_email_nonempty.
Qed.

(** ** The e-mail extractor *)

(** C4. For every package the extractor returns the publisher's e-mail first,
    when the publisher has one that is not empty, then the e-mails of the
    maintainers in the order they are listed, leaving out every maintainer
    whose e-mail is empty or missing; a [maintainers] field that is absent or
    not an array counts as no maintainers. *)
Theorem getEmailsFromPackage_publisher_then_maintainers (pkg : Package) :
  getEmailsFromPackage pkg
  = from_option usable_email [] (publisher pkg)
    ++ flat_map usable_email
         (match maintainers pkg with
          | MaintainersArray ms => ms
          | MaintainersNotArray | MaintainersAbsent => []
          end).
Proof. exact (getEmailsFromPackage_spec pkg). Qed.

(** ** The URL of a page *)

Lemma buildURL_over_cap (index max : nat) (query : string) :
  250 < max →
  buildURL index query max
  = Throw (Error "Max > 250 - the registry can't handle more than this.").
Proof. intros Hmax. unfold buildURL. by rewrite bool_decide_eq_true_2. Qed.

Lemma pageURL_ok (page : nat) (query : string) :
  pageURL page query = Ok (page_url_spec page query).
Proof. reflexivity. Qed.

(** C6. The URL fetched for the zero-based page [p] of the query [q] is
    [{base}?size=250&popularity=1.0&quality=0.0&maintenance=0.0&text={q}&from={p*250}],
    and building a URL with a page size above 250 fails. *)
Theorem pageURL_format (p index max : nat) (q : string) :
  pageURL p q
  = Ok (registry_base
        +:+ "?size=250&popularity=1.0&quality=0.0&maintenance=0.0&text=" +:+ q
        +:+ "&from=" +:+ pretty (p * 250))
  ∧ (250 < max → ∃ e, buildURL index q max = Throw e).
Proof.
  split; [apply pageURL_ok|].
  intros Hmax. eexists. by apply buildURL_over_cap.
Qed.

Lemma pageURL_format_witness :
  pageURL 3 "js"
  = Ok "https://registry.npmjs.com/-/v1/search?size=250&popularity=1.0&quality=0.0&maintenance=0.0&text=js&from=750"
  ∧ ∃ e, buildURL 0 "js" 251 = Throw e.
Proof.
  destruct (pageURL_format 3 0 251 "js") as [Hurl Hcap].
  split; [exact Hurl | apply Hcap; lia].
Defined.

(** ** The retrying fetch *)

Lemma getPage_0 (env : Env) (page : nat) (query : string) (st : State) :
  getPage env page query 0 st = (Throw (Error "retries over"), st).
Proof. reflexivity. Qed.

Lemma getPage_S_failure (env : Env) (page n : nat) (query : string) (st : State) :
  let url := page_url_spec page query in
  succeeds (net env (fetches st) url) = false →
  getPage env page query (S n) st
  = getPage env page query n (after_failure url (net env (fetches st) url) st).
Proof.
  intros url Hfail. cbn [getPage]. unfold try_catch at 1.
  unfold mbind, M_bind, liftR at 1. rewrite pageURL_ok. fold url.
  unfold fetch at 1. cbv zeta.
  destruct (net env (fetches st) url) as [msg|msg| |pkgs] eqn:Hnet;
    try discriminate Hfail; unfold after_failure;
    cbn -[getPage String.append]; reflexivity.
Qed.

Lemma getPage_S_success (env : Env) (page n : nat) (query : string)
    (pkgs : list Package) (st : State) :
  let url := page_url_spec page query in
  net env (fetches st) url = Objects pkgs →
  getPage env page query (S n) st
  = (Ok (alloc (next_ref st) pkgs), after_success url pkgs st).
Proof.
  intros url Hnet. cbn [getPage]. unfold try_catch at 1.
  unfold mbind, M_bind, liftR at 1. rewrite pageURL_ok. fold url.
  unfold fetch at 1. cbv zeta. rewrite Hnet. reflexivity.
Qed.

Lemma getPage_exhausted (env : Env) (page : nat) (query : string) (N : nat) :
  ∀ st,
    (∀ j, j < N →
       succeeds (net env (fetches st + j) (page_url_spec page query)) = false) →
    ∃ st', getPage env page query N st = (Throw (Error "retries over"), st')
           ∧ fetches st' = fetches st + N
           ∧ next_ref st' = next_ref st.
Proof.
  induction N as [|N IH]; intros st Hfail.
  - exists st. rewrite getPage_0. repeat split; lia.
  - rewrite getPage_S_failure
      by (specialize (Hfail 0); rewrite Nat.add_0_r in Hfail; apply Hfail; lia).
    set (st1 := after_failure _ _ st).
    destruct (IH st1) as (st' & Hrun & Hn & Hr).
    { intros j Hj. replace (fetches st1 + j) with (fetches st + S j)
        by (unfold st1; cbn; lia). apply Hfail. lia. }
    exists st'. split; [exact Hrun|]. rewrite Hn, Hr. unfold st1; cbn.
    split; [lia|done].
Qed.

Lemma getPage_recovers (env : Env) (page : nat) (query : string)
    (pkgs : list Package) (k : nat) :
  ∀ N st,
    k < N →
    (∀ j, j < k →
       succeeds (net env (fetches st + j) (page_url_spec page query)) = false) →
    net env (fetches st + k) (page_url_spec page query) = Objects pkgs →
    ∃ st', getPage env page query N st = (Ok (alloc (next_ref st) pkgs), st')
           ∧ fetches st' = fetches st + (k + 1).
Proof.
  induction k as [|k IH]; intros N st HkN Hfail Hok.
  - destruct N as [|N]; [lia|]. rewrite Nat.add_0_r in Hok.
    rewrite (getPage_S_success _ _ _ _ pkgs) by exact Hok.
    eexists. split; [reflexivity|]. cbn. lia.
  - destruct N as [|N]; [lia|].
    rewrite getPage_S_failure
      by (specialize (Hfail 0); rewrite Nat.add_0_r in Hfail; apply Hfail; lia).
    set (st1 := after_failure _ _ st).
    destruct (IH N st1) as (st' & Hrun & Hn).
    + lia.
    + intros j Hj. replace (fetches st1 + j) with (fetches st + S j)
        by (unfold st1; cbn; lia). apply Hfail. lia.
    + replace (fetches st1 + k) with (fetches st + S k)
        by (unfold st1; cbn; lia). exact Hok.
    + exists st'. split; [exact Hrun|]. rewrite Hn. unfold st1; cbn. lia.
Qed.

(** The budget [N] of [getPage] bounds the attempts, the first one
    included: when the first [N] fetches fail, exactly
    [N] attempts are made and the error "retries over" is thrown; when the
    first [k] fetches fail and the next one succeeds, with [k < N], the
    decoded packages are returned after exactly [k + 1] attempts. *)
Theorem getPage_budget_counts_attempts (env : Env) (page : nat)
    (query : string) (N k : nat) (pkgs : list Package) (st : State) :
  let url := page_url_spec page query in
  ((∀ j, j < N → succeeds (net env (fetches st + j) url) = false) →
   ∃ st', getPage env page query N st = (Throw (Error "retries over"), st')
          ∧ fetches st' = fetches st + N)
  ∧ (k < N →
     (∀ j, j < k → succeeds (net env (fetches st + j) url) = false) →
     net env (fetches st + k) url = Objects pkgs →
     ∃ st', getPage env page query N st = (Ok (alloc (next_ref st) pkgs), st')
            ∧ fetches st' = fetches st + (k + 1)).
Proof.
  intros url. split.
  - intros Hfail. destruct (getPage_exhausted env page query N st Hfail)
      as (st' & Hrun & Hn & _). by exists st'.
  - intros HkN Hfail Hok. by eapply getPage_recovers.
Qed.

Lemma getPage_budget_counts_attempts_witness :
  (∃ st', getPage offline 0 "js" 2 init = (Throw (Error "retries over"), st')
          ∧ fetches st' = 2)
  ∧ (∃ st', getPage flaky 0 "js" 3 init = (Ok (alloc 0 [left_pad]), st')
            ∧ fetches st' = 3).
Proof.
  split.
  - apply (getPage_budget_counts_attempts offline 0 "js" 2 0 [] init).
    intros j Hj. reflexivity.
  - apply (getPage_budget_counts_attempts flaky 0 "js" 3 2 [left_pad] init).
    + lia.
    + intros j Hj. cbn. by rewrite bool_decide_eq_true_2.
    + reflexivity.
Defined.

(** C3. The budget of [getPage] is called [retries], defaults to 2 and ends
    in the error "retries over", but it counts the attempts, the first one
    included. With budget 2 a fetch that always fails is attempted twice, not
    three times. A fetch that fails twice and would succeed the third time
    is never asked a third time: after the second failure [getPage] still
    waits 5000 ms and logs the retry, and then throws without a fetch. *)
Theorem getPage_retries_one_short :
  (∃ st', getPage offline 0 "js" 2 init = (Throw (Error "retries over"), st')
          ∧ fetches st' = 2 ∧ fetches st' ≠ 2 + 1)
  ∧ (∃ st', getPage flaky 0 "js" 2 init = (Throw (Error "retries over"), st')
            ∧ fetches st' = 2
            ∧ net flaky 2 (page_url_spec 0 "js") = Objects [left_pad]
            ∧ trace st'
              = [EFetch (page_url_spec 0 "js"); EWait 800; EWait 5000;
                 ELog "retry No objects returned.";
                 EFetch (page_url_spec 0 "js"); EWait 800; EWait 5000;
                 ELog "retry No objects returned."]).
Proof.
  split; eexists; (split; [vm_compute; reflexivity|]).
  - vm_compute. split; congruence.
  - split; [by vm_compute|]. split; by vm_compute.
Qed.

(** ** The page walk *)

Lemma report_progress_run (env : Env) (completed : nat) (st : State) :
  report_progress env completed st = (Ok tt, progressed env completed st).
Proof. unfold progressed, report_progress. by destruct (isatty env). Qed.

Lemma getPackages_loop_S (env : Env) (query : string) (todo i : nat)
    (packages : list PackageObj) (st : State) :
  getPackages_loop env query (S todo) i i packages st
  = match getPage env i query 2 st with
    | (Ok fetched, st1) =>
        getPackages_loop env query todo (S i) (S i) (packages ++ fetched)
          (progressed env (S i) st1)
    | (Throw e, st1) => (Throw e, st1)
    end.
Proof.
  cbn [getPackages_loop]. bind_step.
  destruct (getPage env i query 2 st) as [[fetched|e] st1]; [|done].
  unfold mbind, M_bind. rewrite !Nat.add_1_r, report_progress_run. done.
Qed.

Lemma getPackages_loop_walk (env : Env) (query : string) (todo : nat) :
  ∀ i packages st,
    (∃ pages st',
        Fetched env query i (i + todo) st pages st'
        ∧ getPackages_loop env query todo i i packages st
          = (Ok (packages ++ concat pages), st'))
    ∨ (∃ k pages st1 e st',
          i ≤ k < i + todo
          ∧ Fetched env query i k st pages st1
          ∧ getPage env k query 2 st1 = (Throw e, st')
          ∧ getPackages_loop env query todo i i packages st = (Throw e, st')).
Proof.
  induction todo as [|todo IH]; intros i packages st.
  - left. exists [], st. rewrite Nat.add_0_r. split; [constructor|].
    cbn. by rewrite app_nil_r.
  - rewrite getPackages_loop_S.
    destruct (getPage env i query 2 st) as [[fetched|e] st1] eqn:Hpage.
    + destruct (IH (S i) (packages ++ fetched) (progressed env (S i) st1))
        as [(pages & st' & Hwalk & Hrun)|(k & pages & st2 & e & st' & Hk & Hwalk & Hthrow & Hrun)].
      * left. exists (fetched :: pages), st'. split.
        -- replace (i + S todo) with (S i + todo) by lia.
           by econstructor.
        -- rewrite Hrun. cbn [concat]. by rewrite app_assoc.
      * right. exists k, (fetched :: pages), st2, e, st'.
        split; [lia|]. split; [by econstructor|]. done.
    + right. exists i, [], st, e, st1. split; [lia|].
      split; [constructor|]. done.
Qed.

(** C7. For every query the page walker fetches the pages 0 to
    [PAGES_PER_QUERY - 1] (40 pages) one after the other with the retrying
    fetch and returns their package lists appended in that order; when the
    fetch of a page throws, the walker throws the same error in the state
    the fetch left: no later page is fetched. *)
Theorem getPackages_walks_pages_in_order (env : Env) (query : string)
    (st : State) :
  PAGES_PER_QUERY = 40
  ∧ ((∃ pages st',
         Fetched env query 0 PAGES_PER_QUERY (announced query st) pages st'
         ∧ length pages = PAGES_PER_QUERY
         ∧ getPackages env query st = (Ok (concat pages), st'))
     ∨ (∃ k pages st1 e st',
           k < PAGES_PER_QUERY
           ∧ Fetched env query 0 k (announced query st) pages st1
           ∧ getPage env k query 2 st1 = (Throw e, st')
           ∧ getPackages env query st = (Throw e, st'))).
Proof.
  split; [reflexivity|].
  assert (Hlen : ∀ lo hi s pages s',
            Fetched env query lo hi s pages s' → lo + length pages = hi).
  { induction 1; cbn; lia. }
  assert (Hrun : getPackages env query st
                 = getPackages_loop env query PAGES_PER_QUERY 0 0 []
                     (announced query st)) by reflexivity.
  rewrite Hrun.
  destruct (getPackages_loop_walk env query PAGES_PER_QUERY 0 [] (announced query st))
    as [(pages & st' & Hwalk & Hloop)|(k & pages & st1 & e & st' & Hk & Hwalk & Hthrow & Hloop)].
  - left. exists pages, st'. split; [exact Hwalk|].
    split; [by apply Hlen in Hwalk|exact Hloop].
  - right. exists k, pages, st1, e, st'. split; [lia|]. done.
Qed.

(** ** The deduplicator *)

Lemma elem_of_add_all `{Countable K} (set : gset K) (xs : list K) (x : K) :
  x ∈ add_all set xs ↔ x ∈ set ∨ x ∈ xs.
Proof.
  unfold add_all. revert set.
  induction xs as [|y xs IH]; intros set; cbn [foldl].
  - rewrite elem_of_nil. tauto.
  - rewrite IH, elem_of_union, elem_of_singleton, elem_of_cons. tauto.
Qed.

Lemma add_all_union `{Countable K} (set : gset K) (xs : list K) :
  add_all set xs = set ∪ list_to_set xs.
Proof.
  apply set_eq. intros x.
  rewrite elem_of_add_all, elem_of_union, elem_of_list_to_set. done.
Qed.

Lemma elem_of_filter_from {A} (f : A → nat → list A → bool) (whole : list A)
    (l : list A) (x : A) :
  ∀ i, x ∈ Js.filter_from f whole i l
       ↔ ∃ k, l !! k = Some x ∧ f x (i + k) whole = true.
Proof.
  induction l as [|y l IH]; intros i; cbn [Js.filter_from].
  - rewrite elem_of_nil. split; [done|]. by intros (k & Hk & _).
  - destruct (f y i whole) eqn:Hf.
    + rewrite elem_of_cons, IH. split.
      * intros [->|(k & Hk & Hx)].
        -- exists 0. by rewrite Nat.add_0_r.
        -- exists (S k). by rewrite Nat.add_succ_r.
      * intros ([|k] & Hk & Hx).
        -- left. by injection Hk.
        -- right. exists k. by rewrite Nat.add_succ_r in Hx.
    + rewrite IH. split.
      * intros (k & Hk & Hx). exists (S k). by rewrite Nat.add_succ_r.
      * intros ([|k] & Hk & Hx).
        -- injection Hk as ->. rewrite Nat.add_0_r in Hx. congruence.
        -- exists k. by rewrite Nat.add_succ_r in Hx.
Qed.

Lemma elem_of_keep_new (sent seen : gset string) (unfiltered : list string)
    (e : string) :
  e ∈ keep_new sent seen unfiltered
  ↔ ∃ k, unfiltered !! k = Some e
         ∧ Js.indexOf unfiltered e = Z.of_nat k
         ∧ (e ∉ sent) ∧ (e ∉ seen).
Proof.
  unfold keep_new, Js.filter, Js.has. rewrite elem_of_filter_from.
  apply exist_proper. intros k. cbn [Nat.add].
  rewrite !andb_true_iff, !negb_true_iff, !bool_decide_eq_false,
    bool_decide_eq_true.
  tauto.
Qed.

Lemma keep_new_again (sent seen : gset string) (extracted : list string) :
  keep_new sent (add_all seen (keep_new sent seen extracted)) extracted = [].
Proof.
  apply elem_of_nil_inv. intros e.
  rewrite elem_of_keep_new. intros (k & Hk & Hidx & Hsent & Hseen).
  apply Hseen, elem_of_add_all. right.
  apply elem_of_keep_new. exists k. repeat split; try done.
  intros Hin. apply Hseen, elem_of_add_all. by left.
Qed.

(** C5. Running the deduplicator a second time on the same extracted
    sequence, with the same set of sent e-mails and the same set of new
    e-mails (the one the first run has updated), gives an empty result. *)
Theorem Deduplicator_second_run_empty (sent : gset string)
    (extracted : list string) (newEmailsSet : gset string) :
  (Deduplicator sent extracted (Deduplicator sent extracted newEmailsSet).2).1
  = [].
Proof. apply keep_new_again. Qed.

Lemma main_loop_cons (env : Env) (sent : gset string) (query : string)
    (queries : list string) (seen : gset string) (all : gset nat) :
  main_loop env sent (query :: queries) seen all
  = (packages ← getPackages env query;
     let extracted := Js.flatMap (λ pkg, getEmailsFromPackage (val pkg)) packages in
     written ← writeFile env OUT_PATH (output_file query)
                 (Deduplicator sent extracted seen).1;
     match written, queries with
     | Fulfilled, _ =>
         main_loop env sent queries (Deduplicator sent extracted seen).2
           (add_all all (ref <$> packages))
     | Rejected err, next :: _ => getPackages_until_response next;; throw err
     | Rejected err, [] =>
         mret ((Deduplicator sent extracted seen).2,
               add_all all (ref <$> packages), Rejected err)
     end).
Proof. reflexivity. Qed.

(** One turn of the loop over the queries when the pages of the query were
    fetched: the write is asked for; when it succeeds the loop goes on, when
    it fails the run ends after the first request of the next query, or the
    loop is left when no query follows. *)
Lemma main_loop_step (env : Env) (sent : gset string) (query : string)
    (queries : list string) (seen : gset string) (all : gset nat)
    (st st1 : State) (packages : list PackageObj) :
  getPackages env query st = (Ok packages, st1) →
  main_loop env sent (query :: queries) seen all st
  = let newEmails := newEmails_of sent seen packages in
    let ok := disk env (writes st1) in
    let st2 := write_requested OUT_PATH (output_file query) newEmails ok st1 in
    if ok then
      main_loop env sent queries (add_all seen newEmails)
        (add_all all (ref <$> packages)) st2
    else
      match queries with
      | next :: _ =>
          (Throw (write_error (output_file query)),
           awaiting_first_response next st2)
      | [] =>
          (Ok (add_all seen newEmails, add_all all (ref <$> packages),
               Rejected (write_error (output_file query))), st2)
      end.
Proof.
  intros Hget. cbn [main_loop]. bind_step. rewrite Hget.
  bind_step. unfold writeFile at 1. cbv zeta.
  destruct (disk env (writes st1)); [reflexivity|].
  destruct queries as [|next rest]; reflexivity.
Qed.

(** A query whose pages cannot be fetched ends the loop. *)
Lemma main_loop_failure (env : Env) (sent : gset string) (query : string)
    (queries : list string) (seen : gset string) (all : gset nat)
    (st st1 : State) (e : Exn) :
  getPackages env query st = (Throw e, st1) →
  main_loop env sent (query :: queries) seen all st = (Throw e, st1).
Proof. intros Hget. cbn [main_loop]. bind_step. by rewrite Hget. Qed.

Example keep_new_sent_and_repeated :
  Js.join_lines
    (keep_new {["a@x.com"]} ∅ ["a@x.com"; "b@x.com"; "b@x.com"])
  = "b@x.com".
Proof. by vm_compute. Qed.

Example keep_new_earlier_query :
  let '(foo, seen) := Deduplicator ∅ ["c@x.com"] ∅ in
  foo = ["c@x.com"] ∧ (Deduplicator ∅ ["c@x.com"; "d@x.com"] seen).1 = ["d@x.com"].
Proof. by vm_compute. Qed.

(** ** Which computations write *)

Section Quiet.
Context (env : Env) (query : string).

Lemma outputs_snoc (tr : list Event) (ev : Event) :
  outputs (tr ++ [ev]) = outputs tr ++ outputs [ev].
Proof. unfold outputs. by rewrite omap_app. Qed.

Lemma writes_of_snoc (tr : list Event) (ev : Event) :
  writes_of (tr ++ [ev]) = writes_of tr ++ writes_of [ev].
Proof. unfold writes_of. by rewrite omap_app. Qed.

Lemma failed_writes_app (tr1 tr2 : list Event) :
  failed_writes (tr1 ++ tr2) = failed_writes tr1 ++ failed_writes tr2.
Proof. unfold failed_writes. by rewrite omap_app. Qed.

Lemma outputs_writes_of (tr : list Event) :
  outputs tr = fst <$> writes_of tr.
Proof.
  unfold outputs, writes_of. induction tr as [|ev tr IH]; [done|].
  destruct ev; cbn; by rewrite ?IH.
Qed.

Lemma failed_writes_writes_of (tr : list Event) :
  failed_writes tr
  = omap (λ w : string * list string * bool,
            if w.2 then None else Some w.1.1) (writes_of tr).
Proof.
  unfold failed_writes, writes_of. induction tr as [|ev tr IH]; [done|].
  destruct ev as [| | | |dir file lines [|]]; cbn; by rewrite ?IH.
Qed.

(** A computation that asks for no write leaves the outputs and the failed
    writes of the trace as they are. *)
Lemma quiet_outputs {A} (m : M A) :
  quiet m → ∀ st, outputs (trace (m st).2) = outputs (trace st).
Proof. intros Hq st. by rewrite !outputs_writes_of, Hq. Qed.

Lemma quiet_failed_writes {A} (m : M A) :
  quiet m → ∀ st, failed_writes (trace (m st).2) = failed_writes (trace st).
Proof. intros Hq st. by rewrite !failed_writes_writes_of, Hq. Qed.

Lemma quiet_ret {A} (a : A) : quiet (mret a : M A).
Proof. by intros st. Qed.

Lemma quiet_throw {A} (e : Exn) : quiet (throw e : M A).
Proof. by intros st. Qed.

Lemma quiet_liftR {A} (r : Result A) : quiet (liftR r).
Proof. by intros st. Qed.

Lemma quiet_bind {A B} (m : M A) (k : A → M B) :
  quiet m → (∀ a, quiet (k a)) → quiet (m ≫= k).
Proof.
  intros Hm Hk st. unfold mbind, M_bind. specialize (Hm st).
  destruct (m st) as [[a|e] st1]; cbn in *; [|done].
  by rewrite Hk.
Qed.

Lemma quiet_try_catch {A} (m : M A) (h : Exn → M A) :
  quiet m → (∀ e, quiet (h e)) → quiet (try_catch m h).
Proof.
  intros Hm Hh st. unfold try_catch. specialize (Hm st).
  destruct (m st) as [[a|e] st1]; cbn in *; [done|].
  by rewrite Hh.
Qed.

Lemma quiet_emit (ev : Event) : writes_of [ev] = [] → quiet (emit ev).
Proof.
  intros Hev st. unfold emit. cbn. by rewrite writes_of_snoc, Hev, app_nil_r.
Qed.

Lemma quiet_fetch (url : string) : quiet (fetch env url).
Proof.
  intros st. unfold fetch. cbv zeta.
  destruct (net env (fetches st) url); cbn;
    by rewrite writes_of_snoc, app_nil_r.
Qed.

Lemma quiet_read_objects (r : Response) : quiet (read_objects r).
Proof. intros st. by destruct r. Qed.

Lemma quiet_getPage (page retries : nat) :
  quiet (getPage env page query retries).
Proof.
  induction retries as [|n IH]; cbn [getPage]; [apply quiet_throw|].
  apply quiet_try_catch.
  - apply quiet_bind; [apply quiet_liftR|]. intros url.
    apply quiet_bind; [apply quiet_fetch|]. intros request.
    apply quiet_bind; [by apply quiet_emit|]. intros _.
    apply quiet_read_objects.
  - intros err. apply quiet_bind; [by apply quiet_emit|]. intros _.
    apply quiet_bind; [by apply quiet_emit|]. intros _. exact IH.
Qed.

Lemma quiet_report_progress (completed : nat) :
  quiet (report_progress env completed).
Proof. unfold report_progress. destruct (isatty env); by apply quiet_emit. Qed.

Lemma quiet_getPackages_loop (todo : nat) :
  ∀ i completed packages,
    quiet (getPackages_loop env query todo i completed packages).
Proof.
  induction todo as [|todo IH]; intros i completed packages;
    cbn [getPackages_loop]; [apply quiet_ret|].
  apply quiet_bind; [apply quiet_getPage|]. intros fetched.
  apply quiet_bind; [apply quiet_report_progress|]. intros _. apply IH.
Qed.

Lemma quiet_getPackages :
  quiet (getPackages env query).
Proof.
  apply quiet_bind; [by apply quiet_emit|]. intros _.
  apply quiet_getPackages_loop.
Qed.

End Quiet.

(** ** The output files of a run *)

Lemma newEmails_of_fresh (sent seen : gset string) (packages : list PackageObj)
    (e : string) :
  e ∈ newEmails_of sent seen packages → e ≠ "" ∧ (e ∉ sent) ∧ (e ∉ seen).
Proof.
  unfold newEmails_of. rewrite elem_of_keep_new.
  intros (k & Hk & _ & Hsent & Hseen). split; [|done].
  apply list_elem_of_lookup_2, list_elem_of_In in Hk.
  apply in_flat_map in Hk as (pkg & _ & Hin).
  apply list_elem_of_In in Hin. by eapply getEmailsFromPackage_nonempty.
Qed.

Lemma main_loop_outputs (env : Env) (sent : gset string) (queries : list string) :
  ∀ seen all st,
    ∃ outs,
      outputs (trace (main_loop env sent queries seen all st).2)
      = outputs (trace st) ++ outs
      ∧ Fresh_outputs sent seen outs
      ∧ outs.*1 = output_file <$> take (length outs) queries.
Proof.
  induction queries as [|query queries IH]; intros seen all st.
  - exists []. cbn. rewrite app_nil_r. repeat split. constructor.
  - pose proof (quiet_outputs _ (quiet_getPackages env query) st) as Hquiet.
    destruct (getPackages env query st) as [[packages|e] st1] eqn:Hget;
      cbn in Hquiet.
    + rewrite (main_loop_step _ _ _ _ _ _ _ _ _ Hget). cbv zeta.
      set (newEmails := newEmails_of sent seen packages).
      assert (Hst2 : ∀ ok,
                outputs (trace (write_requested OUT_PATH (output_file query)
                                  newEmails ok st1))
                = outputs (trace st) ++ [(output_file query, newEmails)]).
      { intros ok. cbn [write_requested trace].
        by rewrite outputs_snoc, Hquiet. }
      assert (Hhead : ∀ outs,
                Fresh_outputs sent (add_all seen newEmails) outs →
                Fresh_outputs sent seen ((output_file query, newEmails) :: outs)).
      { intros outs Hfresh. constructor; [apply newEmails_of_fresh|].
        by rewrite <- add_all_union. }
      destruct (disk env (writes st1)).
      * destruct (IH (add_all seen newEmails) (add_all all (ref <$> packages))
                    (write_requested OUT_PATH (output_file query) newEmails
                       true st1))
          as (outs & Hout & Hfresh & Hfiles).
        exists ((output_file query, newEmails) :: outs). split; [|split].
        -- by rewrite Hout, Hst2, <- app_assoc.
        -- by apply Hhead.
        -- cbn. by rewrite Hfiles.
      * exists [(output_file query, newEmails)]. split; [|split].
        -- destruct queries as [|next rest]; cbn [snd]; [apply Hst2|].
           unfold awaiting_first_response. cbn [trace].
           by rewrite !outputs_snoc, !app_nil_r, Hst2.
        -- apply Hhead. constructor.
        -- done.
    + rewrite (main_loop_failure _ _ _ _ _ _ _ _ _ Hget).
      exists []. cbn. rewrite app_nil_r, Hquiet. repeat split. constructor.
Qed.

Lemma run_outputs_inv (env : Env) :
  ∃ outs,
    outputs (trace (run env).2) = outs
    ∧ Fresh_outputs (loaded_sentEmailsSet env) ∅ outs
    ∧ outs.*1 = output_file <$> take (length outs) (loaded_queries env).
Proof.
  unfold run, main, loaded_sentEmailsSet, loaded_queries, read_lines.
  destruct (readFile env QUERIES_FILE_NAME) as [queries|];
    [|exists []; repeat split; constructor].
  bind_step. cbn [mret M_ret].
  destruct (readFile env SENT_EMAILS_FILE_NAME) as [sent|];
    [|exists []; repeat split; constructor].
  bind_step. cbn [mret M_ret].
  bind_step. unfold console_log at 1, emit at 1.
  bind_step.
  match goal with
  | |- context [main_loop env ?s ?qs ?seen ?all ?st] =>
      destruct (main_loop_outputs env s qs seen all st)
        as (outs & Hout & Hfresh & Hfiles);
      destruct (main_loop env s qs seen all st)
        as [[[[seen' all'] written]|e] st1]
  end; cbn in Hout; exists outs; (split; [|done]); cbn.
  - bind_step. unfold console_log at 1, emit at 1.
    destruct written; cbn; by rewrite outputs_snoc, app_nil_r.
  - exact Hout.
Qed.

Lemma run_outputs_fresh (env : Env) :
  Fresh_outputs (loaded_sentEmailsSet env) ∅ (outputs (trace (run env).2)).
Proof. by destruct (run_outputs_inv env) as (outs & -> & Hfresh & _). Qed.

Lemma run_outputs_files (env : Env) :
  (outputs (trace (run env).2)).*1
  = output_file <$> take (length (outputs (trace (run env).2)))
                      (loaded_queries env).
Proof. by destruct (run_outputs_inv env) as (outs & -> & _ & Hfiles). Qed.

Lemma Fresh_outputs_elem (sent seen : gset string)
    (outs : list (string * list string)) (file : string) (lines : list string)
    (e : string) :
  Fresh_outputs sent seen outs →
  (file, lines) ∈ outs → e ∈ lines → e ≠ "" ∧ (e ∉ sent) ∧ (e ∉ seen).
Proof.
  induction 1 as [|seen f l outs Hl _ IH]; [by intros ?%elem_of_nil|].
  intros [Heq|Hin]%elem_of_cons He.
  - injection Heq as -> ->. by apply Hl.
  - destruct (IH Hin He) as (? & ? & Hseen). repeat split; try done.
    intros ?. apply Hseen, elem_of_union. by left.
Qed.

Lemma Fresh_outputs_disjoint (sent seen : gset string)
    (outs : list (string * list string)) (i j : nat) (f1 f2 : string)
    (l1 l2 : list string) (e : string) :
  Fresh_outputs sent seen outs →
  i < j → outs !! i = Some (f1, l1) → outs !! j = Some (f2, l2) →
  e ∈ l1 → e ∉ l2.
Proof.
  intros Hfresh. revert i j.
  induction Hfresh as [|seen f l outs Hl Hfresh IH]; intros i j Hij Hi Hj He He2;
    [done|].
  destruct j as [|j]; [lia|]. cbn in Hj. destruct i as [|i]; cbn in Hi.
  - injection Hi as -> ->.
    apply list_elem_of_lookup_2 in Hj.
    destruct (Fresh_outputs_elem _ _ _ _ _ e Hfresh Hj He2) as (_ & _ & Hseen).
    apply Hseen, elem_of_union. right. by apply elem_of_list_to_set.
  - by apply (IH i j ltac:(lia) Hi Hj He).
Qed.

Example two_queries_outputs :
  outputs (trace (run two_queries).2)
  = [("foo_new_emails.txt", ["b@x.com"; "c@x.com"]);
     ("bar_new_emails.txt", ["d@x.com"])]
  ∧ "" ∈ loaded_sentEmailsSet two_queries.
Proof. split; [by vm_compute|]. by_evaluation. Qed.

(** C1. In every run, the e-mails written to the output file of a query
    contain no e-mail of the set of sent e-mails loaded at startup. *)
Theorem outputs_exclude_sent (env : Env) (file : string) (lines : list string)
    (e : string) :
  (file, lines) ∈ outputs (trace (run env).2) →
  e ∈ lines →
  e ∉ loaded_sentEmailsSet env.
Proof.
  intros Hout He.
  by destruct (Fresh_outputs_elem _ _ _ _ _ e (run_outputs_fresh env) Hout He)
    as (_ & Hsent & _).
Qed.

Lemma outputs_exclude_sent_witness :
  "a@x.com" ∈ loaded_sentEmailsSet two_queries
  ∧ "b@x.com" ∉ loaded_sentEmailsSet two_queries.
Proof.
  split; [by_evaluation|].
  apply (outputs_exclude_sent two_queries "foo_new_emails.txt"
           ["b@x.com"; "c@x.com"] "b@x.com").
  - assert (outputs (trace (run two_queries).2)
            = [("foo_new_emails.txt", ["b@x.com"; "c@x.com"]);
               ("bar_new_emails.txt", ["d@x.com"])]) as -> by (by vm_compute).
    apply list_elem_of_here.
  - apply list_elem_of_here.
Defined.

(** C2. In every run, when the query [q1] is processed before the query
    [q2], no e-mail is both in the output written for [q1] and in the output
    written for [q2]: the outputs of a run are written in the order of the
    queries, one per query, and an e-mail of an earlier output is in no
    later one. *)
Theorem outputs_of_two_queries_disjoint (env : Env) (i j : nat)
    (f1 f2 : string) (l1 l2 : list string) (e : string) :
  i < j →
  outputs (trace (run env).2) !! i = Some (f1, l1) →
  outputs (trace (run env).2) !! j = Some (f2, l2) →
  e ∈ l1 →
  (e ∉ l2)
  ∧ output_file <$> (loaded_queries env !! i) = Some f1
  ∧ output_file <$> (loaded_queries env !! j) = Some f2.
Proof.
  intros Hij Hi Hj He. split.
  { by eapply Fresh_outputs_disjoint; [apply run_outputs_fresh|..]. }
  pose proof (run_outputs_files env) as Hfiles.
  assert (Hfile : ∀ k f l,
            outputs (trace (run env).2) !! k = Some (f, l) →
            output_file <$> (loaded_queries env !! k) = Some f).
  { intros k f l Hk.
    assert (Hlt : k < length (outputs (trace (run env).2)))
      by (by eapply lookup_lt_Some).
    assert (Hf : (outputs (trace (run env).2)).*1 !! k = Some f)
      by (by rewrite list_lookup_fmap, Hk).
    rewrite Hfiles, list_lookup_fmap, lookup_take_lt in Hf by exact Hlt.
    exact Hf. }
  split; eapply Hfile; eassumption.
Qed.

Lemma outputs_of_two_queries_disjoint_witness :
  ("c@x.com" ∉ ["d@x.com"])
  ∧ output_file <$> (loaded_queries two_queries !! 0) = Some "foo_new_emails.txt"
  ∧ output_file <$> (loaded_queries two_queries !! 1) = Some "bar_new_emails.txt".
Proof.
  assert (Houts : outputs (trace (run two_queries).2)
            = [("foo_new_emails.txt", ["b@x.com"; "c@x.com"]);
               ("bar_new_emails.txt", ["d@x.com"])]) by (by vm_compute).
  apply (outputs_of_two_queries_disjoint two_queries 0 1 "foo_new_emails.txt"
           "bar_new_emails.txt" ["b@x.com"; "c@x.com"] ["d@x.com"] "c@x.com").
  - lia.
  - by rewrite Houts.
  - by rewrite Houts.
  - apply list_elem_of_further, list_elem_of_here.
Defined.

(** C10. Every e-mail the extractor returns is a non-empty string, and so is
    every e-mail written to the output file of a query, whatever the input
    files hold: the empty string that a trailing newline puts into the set of
    sent e-mails is never extracted and never written. *)
Theorem emails_never_empty (pkg : Package) (env : Env) (file : string)
    (lines : list string) (e : string) :
  (e ∈ getEmailsFromPackage pkg → e ≠ "")
  ∧ ((file, lines) ∈ outputs (trace (run env).2) → e ∈ lines → e ≠ "").
Proof.
  split; [apply getEmailsFromPackage_nonempty|].
  intros Hout He.
  by destruct (Fresh_outputs_elem _ _ _ _ _ e (run_outputs_fresh env) Hout He)
    as (Hne & _).
Qed.

Lemma emails_never_empty_witness :
  "" ∈ loaded_sentEmailsSet two_queries
  ∧ getEmailsFromPackage left_pad = ["a@x.com"; "b@x.com"; "b@x.com"]
  ∧ "b@x.com" ≠ "".
Proof.
  split; [by_evaluation|].
  split; [reflexivity|].
  destruct (emails_never_empty left_pad two_queries "foo_new_emails.txt"
              ["b@x.com"; "c@x.com"] "b@x.com") as [Hextracted Hwritten].
  apply Hwritten.
  - assert (outputs (trace (run two_queries).2)
            = [("foo_new_emails.txt", ["b@x.com"; "c@x.com"]);
               ("bar_new_emails.txt", ["d@x.com"])]) as -> by (by vm_compute).
    apply list_elem_of_here.
  - apply list_elem_of_here.
Defined.

(** ** Writes that fail *)

Lemma failed_writes_snoc (tr : list Event) (ev : Event) :
  failed_writes (tr ++ [ev]) = failed_writes tr ++ failed_writes [ev].
Proof. apply failed_writes_app. Qed.






(** The write of the last query fails: the closing line is still printed,
    then the run ends with the error of the write. *)
Example last_write_fails_run :
  (run last_write_fails).1 = Throw (write_error "bar_new_emails.txt")
  ∧ last (console (trace (run last_write_fails).2))
    = Some "Wrote 3 new emails to 2 files in data/out pulled from 4 unique packages."
  ∧ (outputs (trace (run last_write_fails).2)).*1
    = ["foo_new_emails.txt"; "bar_new_emails.txt"]
  ∧ failed_writes (trace (run last_write_fails).2) = ["bar_new_emails.txt"]
  ∧ fetches (run last_write_fails).2 = 80.
Proof.
  split; [by vm_compute|]. split; [by vm_compute|]. split; [by vm_compute|].
  split; by vm_compute.
Qed.

(** What [getPackages_until_response] does is how [getPackages] starts:
    the same announcement and the same first request, before anything
    else. *)
Lemma getPackages_until_response_run (next : string) (st : State) :
  getPackages_until_response next st
  = (Ok tt, awaiting_first_response next st).
Proof. reflexivity. Qed.

Lemma send_request_fetch (env : Env) (url : string) (st : State) :
  (fetch env url st).2 = (send_request url st).2.
Proof. unfold fetch, send_request. cbv zeta. by destruct (net env _ _). Qed.

Lemma getPage_extends (env : Env) (page : nat) (query : string) (retries : nat) :
  ∀ st, ∃ more, trace (getPage env page query retries st).2 = trace st ++ more.
Proof.
  induction retries as [|n IH]; intros st.
  - exists []. by rewrite getPage_0, app_nil_r.
  - destruct (net env (fetches st) (page_url_spec page query))
      as [msg|msg| |pkgs] eqn:Hnet.
    4: { rewrite (getPage_S_success _ _ _ _ pkgs) by exact Hnet.
         eexists. cbn [snd after_success trace]. by rewrite <- app_assoc. }
    all: rewrite getPage_S_failure by (by rewrite Hnet).
    all: destruct (IH (after_failure (page_url_spec page query)
                         (net env (fetches st) (page_url_spec page query)) st))
           as [more ->].
    all: rewrite Hnet; eexists; cbn [after_failure trace];
      by rewrite <- !app_assoc.
Qed.

Lemma getPage_first_request (env : Env) (page n : nat) (query : string)
    (st : State) :
  ∃ more,
    trace (getPage env page query (S n) st).2
    = trace st ++ EFetch (page_url_spec page query) :: more.
Proof.
  destruct (net env (fetches st) (page_url_spec page query))
    as [msg|msg| |pkgs] eqn:Hnet.
  4: { rewrite (getPage_S_success _ _ _ _ pkgs) by exact Hnet.
       eexists. cbn [snd after_success trace]. by rewrite <- app_assoc. }
  all: rewrite getPage_S_failure by (by rewrite Hnet).
  all: destruct (getPage_extends env page query n
                   (after_failure (page_url_spec page query)
                      (net env (fetches st) (page_url_spec page query)) st))
         as [more ->].
  all: rewrite Hnet; eexists; cbn [after_failure trace];
    by rewrite <- !app_assoc.
Qed.

Lemma getPackages_loop_extends (env : Env) (query : string) (todo : nat) :
  ∀ i completed packages st,
    ∃ more,
      trace (getPackages_loop env query todo i completed packages st).2
      = trace st ++ more.
Proof.
  induction todo as [|todo IH]; intros i completed packages st.
  - exists []. cbn. by rewrite app_nil_r.
  - cbn [getPackages_loop]. bind_step.
    destruct (getPage_extends env i query 2 st) as [more Hmore].
    destruct (getPage env i query 2 st) as [[fetched|e] st1];
      cbn [snd] in Hmore; [|by exists more].
    bind_step. rewrite report_progress_run.
    destruct (IH (i + 1) (completed + 1) (packages ++ fetched)
                (progressed env (completed + 1) st1)) as [more' ->].
    assert (Hprog : ∃ ev, trace (progressed env (completed + 1) st1)
                          = trace st1 ++ [ev]).
    { unfold progressed, report_progress. destruct (isatty env); by eexists. }
    destruct Hprog as [ev ->]. rewrite Hmore. eexists.
    by rewrite <- !app_assoc.
Qed.

Lemma getPackages_loop_first_request (env : Env) (query : string)
    (todo i completed : nat) (packages : list PackageObj) (st : State) :
  ∃ more,
    trace (getPackages_loop env query (S todo) i completed packages st).2
    = trace st ++ EFetch (page_url_spec i query) :: more.
Proof.
  cbn [getPackages_loop]. bind_step.
  destruct (getPage_first_request env i 1 query st) as [more Hmore].
  destruct (getPage env i query 2 st) as [[fetched|e] st1];
    cbn [snd] in Hmore; [|by exists more].
  bind_step. rewrite report_progress_run.
  destruct (getPackages_loop_extends env query todo (i + 1) (completed + 1)
              (packages ++ fetched) (progressed env (completed + 1) st1))
    as [more' ->].
  assert (Hprog : ∃ ev, trace (progressed env (completed + 1) st1)
                        = trace st1 ++ [ev]).
  { unfold progressed, report_progress. destruct (isatty env); by eexists. }
  destruct Hprog as [ev ->]. rewrite Hmore. eexists.
  by rewrite <- !app_assoc.
Qed.

Lemma getPackages_first_request (env : Env) (query : string) (st : State) :
  ∃ more,
    trace (getPackages env query st).2
    = trace (awaiting_first_response query st) ++ more.
Proof.
  unfold getPackages. bind_step. unfold console_log at 1, emit at 1.
  change PAGES_PER_QUERY with (S 39).
  match goal with
  | |- context [getPackages_loop env query (S 39) 0 0 [] ?s] =>
      destruct (getPackages_loop_first_request env query 39 0 0 [] s)
        as [more ->]
  end.
  exists more. cbn [awaiting_first_response trace]. by rewrite <- !app_assoc.
Qed.

(** ** The count of unique packages *)

Lemma alloc_refs (pkgs : list Package) :
  ∀ next, ref <$> alloc next pkgs = seq next (length pkgs)
          ∧ length (alloc next pkgs) = length pkgs.
Proof.
  induction pkgs as [|p pkgs IH]; intros next; [done|].
  cbn. destruct (IH (S next)) as [-> ->]. done.
Qed.

Lemma getPage_refs (env : Env) (page : nat) (query : string) (retries : nat) :
  ∀ st,
    match getPage env page query retries st with
    | (Ok fetched, st') =>
        ref <$> fetched = seq (next_ref st) (length fetched)
        ∧ next_ref st' = next_ref st + length fetched
    | (Throw _, st') => next_ref st' = next_ref st
    end.
Proof.
  induction retries as [|n IH]; intros st; [done|].
  destruct (net env (fetches st) (page_url_spec page query)) as [msg|msg| |pkgs] eqn:Hnet.
  4: { rewrite (getPage_S_success _ _ _ _ pkgs) by exact Hnet.
       destruct (alloc_refs pkgs (next_ref st)) as [Hrefs Hlen].
       rewrite Hlen. split; [exact Hrefs|done]. }
  all: rewrite getPage_S_failure by (by rewrite Hnet).
  all: rewrite Hnet; exact (IH (after_failure _ _ st)).
Qed.

Lemma getPackages_loop_refs (env : Env) (query : string) (todo : nat) :
  ∀ i completed packages st,
    match getPackages_loop env query todo i completed packages st with
    | (Ok all, st') =>
        ∃ more, all = packages ++ more
                ∧ ref <$> more = seq (next_ref st) (length more)
                ∧ next_ref st' = next_ref st + length more
    | (Throw _, _) => True
    end.
Proof.
  induction todo as [|todo IH]; intros i completed packages st.
  - exists []. cbn. by rewrite app_nil_r, Nat.add_0_r.
  - cbn [getPackages_loop]. bind_step.
    pose proof (getPage_refs env i query 2 st) as Hpage.
    destruct (getPage env i query 2 st) as [[fetched|e] st1]; [|done].
    destruct Hpage as [Hrefs Hnext].
    bind_step. rewrite report_progress_run.
    assert (Hprog : next_ref (progressed env (completed + 1) st1) = next_ref st1).
    { unfold progressed, report_progress. by destruct (isatty env). }
    specialize (IH (i + 1) (completed + 1) (packages ++ fetched)
                  (progressed env (completed + 1) st1)).
    destruct (getPackages_loop _ _ _ _ _ _ _) as [[all|e] st']; [|done].
    destruct IH as (more & -> & Hmore & Hnext').
    exists (fetched ++ more). rewrite app_assoc. split; [done|].
    rewrite Hprog, Hnext in Hmore, Hnext'.
    rewrite fmap_app, length_app, seq_app, Hrefs, Hmore, Hnext'.
    split; [done|lia].
Qed.

Lemma getPackages_refs (env : Env) (query : string) (st st1 : State)
    (packages : list PackageObj) :
  getPackages env query st = (Ok packages, st1) →
  ref <$> packages = seq (next_ref st) (length packages)
  ∧ next_ref st1 = next_ref st + length packages.
Proof.
  unfold getPackages. bind_step. unfold console_log at 1, emit at 1.
  match goal with
  | |- context [getPackages_loop env query ?t ?i ?c ?p ?s] =>
      pose proof (getPackages_loop_refs env query t i c p s) as Hloop;
      destruct (getPackages_loop env query t i c p s) as [[all|e] st']
  end; [|done].
  destruct Hloop as (more & -> & Hrefs & Hnext). cbn in Hrefs, Hnext.
  by intros [= <- <-].
Qed.

Lemma main_loop_counts_objects (env : Env) (sent : gset string)
    (queries : list string) :
  ∀ seen all st,
    all = list_to_set (seq 0 (next_ref st)) →
    match main_loop env sent queries seen all st with
    | (Ok (_, all', _), st') => all' = list_to_set (seq 0 (next_ref st'))
    | (Throw _, _) => True
    end.
Proof.
  induction queries as [|query queries IH]; intros seen all st Hall; [done|].
  destruct (getPackages env query st) as [[packages|e] st1] eqn:Hget.
  - rewrite (main_loop_step _ _ _ _ _ _ _ _ _ Hget). cbv zeta.
    destruct (getPackages_refs _ _ _ _ _ Hget) as [Hrefs Hnext].
    assert (Hall' : add_all all (ref <$> packages)
                    = list_to_set (seq 0 (next_ref st1))).
    { rewrite add_all_union, Hall, Hnext, seq_app, list_to_set_app_L.
      by rewrite Hrefs. }
    destruct (disk env (writes st1)).
    + by apply IH.
    + by destruct queries.
  - by rewrite (main_loop_failure _ _ _ _ _ _ _ _ _ Hget).
Qed.

(** What the closing message calls the number of unique packages is the
    number of package objects decoded during the run. *)
Lemma unique_packages_is_object_count (env : Env) (s : Summary) (st : State) :
  run env = (Ok s, st) → unique_packages s = next_ref st.
Proof.
  unfold run, main, read_lines.
  destruct (readFile env QUERIES_FILE_NAME) as [queries|]; [|done].
  bind_step. cbn [mret M_ret].
  destruct (readFile env SENT_EMAILS_FILE_NAME) as [sent|]; [|done].
  bind_step. cbn [mret M_ret].
  bind_step. unfold console_log at 1, emit at 1.
  bind_step.
  match goal with
  | |- context [main_loop env ?x ?qs ?seen ?all ?s0] =>
      pose proof (main_loop_counts_objects env x qs seen all s0 eq_refl) as Hall;
      destruct (main_loop env x qs seen all s0)
        as [[[[seen' all'] written]|e] st1]
  end; [|done].
  bind_step. unfold console_log at 1, emit at 1.
  destruct written; [|done].
  cbn. intros [= <- <-]. cbn. rewrite Hall.
  rewrite size_list_to_set by apply NoDup_seq. by rewrite length_seq.
Qed.

(** C8. The registry lists the package "left-pad" twice; by name the run has
    seen one unique package, the closing message of the script counts two. *)
Theorem allPackagesSet_counts_objects_not_names :
  (run repeated_package).1
  = Ok {| new_emails := 1; files := 1; unique_packages := 2 |}
  ∧ unique_names [left_pad; left_pad] = 1.
Proof. split; by vm_compute. Qed.

(** * Further properties of the script *)

(** ** Lines of a file *)

Lemma LF_neq_CR : Js.LF ≠ Js.CR.
Proof. discriminate. Qed.

Lemma string_app_cons (a : Ascii.ascii) (s1 s2 : string) :
  String a s1 +:+ s2 = String a (s1 +:+ s2).
Proof. reflexivity. Qed.

Lemma string_app_nil (s : string) : "" +:+ s = s.
Proof. reflexivity. Qed.

Lemma string_app_assoc (s1 s2 s3 : string) :
  (s1 +:+ s2) +:+ s3 = s1 +:+ (s2 +:+ s3).
Proof.
  induction s1 as [|a s1 IH]; [done|]. by rewrite !string_app_cons, IH.
Qed.

Lemma count_LF_LF (rest : string) :
  count_char Js.LF (String Js.LF rest) = S (count_char Js.LF rest).
Proof. cbn [count_char]. by rewrite bool_decide_eq_true_2. Qed.

Lemma count_LF_CRLF (rest : string) :
  count_char Js.LF (String Js.CR (String Js.LF rest))
  = S (count_char Js.LF rest).
Proof.
  cbn [count_char]. rewrite (bool_decide_eq_true_2 (Js.LF = Js.LF)) by done.
  by rewrite bool_decide_eq_false_2 by discriminate.
Qed.

Lemma split_lines_LF (rest : string) :
  Js.split_lines (String Js.LF rest) = "" :: Js.split_lines rest.
Proof. reflexivity. Qed.

Lemma split_lines_CRLF (rest : string) :
  Js.split_lines (String Js.CR (String Js.LF rest)) = "" :: Js.split_lines rest.
Proof. reflexivity. Qed.

Lemma split_lines_nonempty (s : string) : Js.split_lines s ≠ [].
Proof.
  destruct s as [|c rest]; [done|]. cbn [Js.split_lines].
  case_bool_decide; [done|]. destruct rest as [|d rest']; [done|].
  destruct (_ && _); [done|]. by destruct (Js.split_lines _).
Qed.

(** The head segment is extended by an ordinary character. *)
Lemma split_lines_char (c : Ascii.ascii) (rest : string) :
  c ≠ Js.LF →
  (c = Js.CR → ∀ rest', rest ≠ String Js.LF rest') →
  ∃ seg segs, Js.split_lines rest = seg :: segs
              ∧ Js.split_lines (String c rest) = String c seg :: segs.
Proof.
  intros Hc Hcr. cbn [Js.split_lines]. rewrite bool_decide_eq_false_2 by done.
  destruct rest as [|d rest']; [by exists "", []|].
  assert (bool_decide (c = Js.CR) && bool_decide (d = Js.LF) = false) as ->.
  { apply andb_false_iff. destruct (decide (c = Js.CR)) as [Hcr'|Hcr'].
    - right. apply bool_decide_eq_false_2. intros ->. by eapply Hcr.
    - left. by apply bool_decide_eq_false_2. }
  pose proof (split_lines_nonempty (String d rest')) as Hne.
  destruct (Js.split_lines (String d rest')) as [|seg segs]; [done|].
  by exists seg, segs.
Qed.

(** Induction along the way [split_lines] reads a string. *)
Lemma split_lines_ind (P : string → Prop) :
  P "" →
  (∀ rest, P rest → P (String Js.LF rest)) →
  (∀ rest, P rest → P (String Js.CR (String Js.LF rest))) →
  (∀ c rest, c ≠ Js.LF → (c = Js.CR → ∀ rest', rest ≠ String Js.LF rest') →
             P rest → P (String c rest)) →
  ∀ s, P s.
Proof.
  intros Hnil Hlf Hcrlf Hchar s.
  assert (Hboth : P s ∧ ∀ c, P (String c s)).
  { induction s as [|d rest [IH1 IH2]].
    - split; [done|]. intros c. destruct (decide (c = Js.LF)) as [->|Hc].
      + by apply Hlf.
      + by apply Hchar.
    - split; [apply IH2|]. intros c.
      destruct (decide (c = Js.LF)) as [->|Hc]; [by apply Hlf|].
      destruct (decide (c = Js.CR ∧ d = Js.LF)) as [[-> ->]|Hn].
      + by apply Hcrlf.
      + apply Hchar; [done| |done]. intros -> rest' [= -> _]. by apply Hn. }
  apply Hboth.
Qed.

Lemma length_split_lines (s : string) :
  length (Js.split_lines s) = S (count_char Js.LF s).
Proof.
  induction s as [|rest IH|rest IH|c rest Hc Hcr IH] using split_lines_ind.
  - reflexivity.
  - by rewrite split_lines_LF, count_LF_LF; cbn; rewrite IH.
  - by rewrite split_lines_CRLF, count_LF_CRLF; cbn; rewrite IH.
  - destruct (split_lines_char c rest Hc Hcr) as (seg & segs & Hrest & ->).
    rewrite Hrest in IH. cbn [count_char].
    rewrite bool_decide_eq_false_2 by done. exact IH.
Qed.

Lemma count_LF_snoc (s : string) :
  count_char Js.LF (s +:+ Js.newline) = S (count_char Js.LF s).
Proof.
  induction s as [|a s IH]; [done|].
  rewrite string_app_cons. cbn [count_char]. rewrite IH. lia.
Qed.

(** The segments of a content that ends with a line feed end with an empty
    segment. *)
Lemma split_lines_snoc_newline (s : string) :
  ∃ segs, Js.split_lines (s +:+ Js.newline) = segs ++ [""].
Proof.
  induction s as [|rest IH|rest IH|c rest Hc Hcr IH] using split_lines_ind.
  - by exists [""].
  - rewrite string_app_cons, split_lines_LF. destruct IH as [segs ->].
    by exists ("" :: segs).
  - rewrite !string_app_cons, split_lines_CRLF. destruct IH as [segs ->].
    by exists ("" :: segs).
  - rewrite string_app_cons. destruct IH as [segs Hsegs].
    assert (Hcr' : c = Js.CR → ∀ rest', rest +:+ Js.newline ≠ String Js.LF rest'
                   ∨ rest = "").
    { intros Hc' rest'. destruct rest as [|d rest'']; [by right|left].
      rewrite string_app_cons. intros [= -> _]. by apply (Hcr Hc' rest''). }
    destruct (decide (c = Js.CR ∧ rest = "")) as [[-> ->]|Hn].
    { by exists [""]. }
    destruct (split_lines_char c (rest +:+ Js.newline) Hc)
      as (seg & segs0 & Hrest & ->).
    { intros Hc' rest' Heq. destruct (Hcr' Hc' rest') as [Hne| ->]; [done|].
      by apply Hn. }
    rewrite Hrest in Hsegs. destruct segs as [|s0 segs'].
    + pose proof (length_split_lines (rest +:+ Js.newline)) as Hlen.
      rewrite Hrest, Hsegs, count_LF_snoc in Hlen. cbn in Hlen. lia.
    + injection Hsegs as -> ->. by exists (String c s0 :: segs').
Qed.

(** X1. Splitting a content gives one segment more than it has line feeds:
    never an empty list, one empty segment for an empty file, and a last
    empty segment for a content that ends with a line feed. *)
Theorem split_lines_length (s : string) :
  length (Js.split_lines s) = S (count_char Js.LF s)
  ∧ Js.split_lines s ≠ []
  ∧ Js.split_lines "" = [""]
  ∧ last (Js.split_lines (s +:+ Js.newline)) = Some "".
Proof.
  split; [apply length_split_lines|]. split; [apply split_lines_nonempty|].
  split; [done|].
  destruct (split_lines_snoc_newline s) as [segs ->]. apply last_snoc.
Qed.

(** X2. No segment of a split content holds a line feed. *)
Theorem split_lines_no_LF (s seg : string) :
  seg ∈ Js.split_lines s → count_char Js.LF seg = 0.
Proof.
  revert seg.
  induction s as [|rest IH|rest IH|c rest Hc Hcr IH] using split_lines_ind;
    intros seg.
  - by intros ->%list_elem_of_singleton.
  - rewrite split_lines_LF. intros [->|Hin]%elem_of_cons; [done|by apply IH].
  - rewrite split_lines_CRLF. intros [->|Hin]%elem_of_cons; [done|by apply IH].
  - destruct (split_lines_char c rest Hc Hcr) as (seg0 & segs & Hrest & ->).
    rewrite Hrest in IH. intros [->|Hin]%elem_of_cons.
    + cbn [count_char]. rewrite bool_decide_eq_false_2 by done.
      apply IH, list_elem_of_here.
    + by apply IH, list_elem_of_further.
Qed.

Lemma split_lines_no_LF_witness :
  count_char Js.LF "b@x.com" = 0.
Proof.
  apply (split_lines_no_LF
           ("a@x.com" +:+ String Js.CR Js.newline +:+ "b@x.com") "b@x.com").
  by_evaluation.
Defined.

Lemma join_lines_cons (l : string) (seg : string) (segs : list string) :
  Js.join_lines (l :: seg :: segs)
  = l +:+ String Js.LF (Js.join_lines (seg :: segs)).
Proof. reflexivity. Qed.

Lemma join_lines_push (c : Ascii.ascii) (seg : string) (segs : list string) :
  Js.join_lines (String c seg :: segs) = String c (Js.join_lines (seg :: segs)).
Proof. by destruct segs. Qed.

Lemma crlf_to_lf_char (c : Ascii.ascii) (rest : string) :
  (c = Js.CR → ∀ rest', rest ≠ String Js.LF rest') →
  crlf_to_lf (String c rest) = String c (crlf_to_lf rest).
Proof.
  intros Hcr. destruct rest as [|d rest']; [done|]. cbn [crlf_to_lf].
  assert (bool_decide (c = Js.CR) && bool_decide (d = Js.LF) = false) as ->;
    [|done].
  apply andb_false_iff. destruct (decide (c = Js.CR)) as [Hc|Hc].
  - right. apply bool_decide_eq_false_2. intros ->. by eapply Hcr.
  - left. by apply bool_decide_eq_false_2.
Qed.

Lemma join_split_lines (s : string) :
  Js.join_lines (Js.split_lines s) = crlf_to_lf s.
Proof.
  induction s as [|rest IH|rest IH|c rest Hc Hcr IH] using split_lines_ind.
  - reflexivity.
  - rewrite split_lines_LF, crlf_to_lf_char by (by intros ?%LF_neq_CR).
    pose proof (split_lines_nonempty rest) as Hne.
    destruct (Js.split_lines rest) as [|seg segs]; [done|].
    rewrite join_lines_cons, IH. reflexivity.
  - rewrite split_lines_CRLF.
    pose proof (split_lines_nonempty rest) as Hne.
    destruct (Js.split_lines rest) as [|seg segs]; [done|].
    rewrite join_lines_cons, IH. reflexivity.
  - destruct (split_lines_char c rest Hc Hcr) as (seg & segs & Hrest & ->).
    rewrite join_lines_push, crlf_to_lf_char by done.
    by rewrite <- Hrest, IH.
Qed.

Lemma crlf_to_lf_no_CR (s : string) :
  count_char Js.CR s = 0 → crlf_to_lf s = s.
Proof.
  induction s as [|c rest IH]; [done|]. cbn [count_char]. intros Hcount.
  assert (c ≠ Js.CR) as Hc.
  { intros ->. by rewrite bool_decide_eq_true_2 in Hcount. }
  rewrite crlf_to_lf_char by done. rewrite IH; [done|].
  by rewrite bool_decide_eq_false_2 in Hcount.
Qed.

(** X3. Joining the segments of a content with line feeds gives the content
    back with every CR LF turned into LF; a content without carriage return
    comes back unchanged. *)
Theorem join_split_lines_normalizes (s : string) :
  Js.join_lines (Js.split_lines s) = crlf_to_lf s
  ∧ (count_char Js.CR s = 0 → Js.join_lines (Js.split_lines s) = s).
Proof.
  split; [apply join_split_lines|].
  intros Hcr. by rewrite join_split_lines, crlf_to_lf_no_CR.
Qed.

Lemma join_split_lines_normalizes_witness :
  Js.join_lines (Js.split_lines ("a" +:+ String Js.CR Js.newline +:+ "b"))
  = "a" +:+ Js.newline +:+ "b"
  ∧ Js.join_lines (Js.split_lines ("a" +:+ Js.newline +:+ "b" +:+ Js.newline))
    = "a" +:+ Js.newline +:+ "b" +:+ Js.newline.
Proof.
  split.
  - apply (join_split_lines_normalizes ("a" +:+ String Js.CR Js.newline +:+ "b")).
  - apply (join_split_lines_normalizes ("a" +:+ Js.newline +:+ "b" +:+ Js.newline)).
    reflexivity.
Defined.

Lemma split_lines_one (l : string) :
  count_char Js.LF l = 0 → Js.split_lines l = [l].
Proof.
  induction l as [|rest IH|rest IH|c rest Hc Hcr IH] using split_lines_ind.
  - done.
  - by rewrite count_LF_LF.
  - by rewrite count_LF_CRLF.
  - cbn [count_char]. rewrite bool_decide_eq_false_2 by done. intros Hcount.
    destruct (split_lines_char c rest Hc Hcr) as (seg & segs & Hrest & ->).
    rewrite IH in Hrest by done. by injection Hrest as <- <-.
Qed.

Lemma split_lines_line (l rest : string) :
  plain_line l →
  Js.split_lines (l +:+ String Js.LF rest) = l :: Js.split_lines rest.
Proof.
  induction l as [|l0 IH|l0 IH|c l0 Hc Hcr IH] using split_lines_ind.
  - intros _. apply split_lines_LF.
  - intros [Hcount _]. by rewrite count_LF_LF in Hcount.
  - intros [Hcount _]. by rewrite count_LF_CRLF in Hcount.
  - intros [Hcount Hend]. cbn [count_char] in Hcount.
    rewrite bool_decide_eq_false_2 in Hcount by done.
    assert (Hstep : c = Js.CR → ∀ rest', l0 +:+ String Js.LF rest ≠ String Js.LF rest').
    { intros -> rest'. destruct l0 as [|d l1].
      - cbn in Hend. by rewrite bool_decide_eq_true_2 in Hend.
      - cbn. intros [= -> _]. by eapply Hcr. }
    destruct (split_lines_char c (l0 +:+ String Js.LF rest) Hc Hstep)
      as (seg & segs & Hrest & Hsplit).
    change (String c l0 +:+ String Js.LF rest)
      with (String c (l0 +:+ String Js.LF rest)).
    rewrite Hsplit. destruct l0 as [|d l1].
    + cbn in Hrest. by injection Hrest as <- <-.
    + rewrite IH in Hrest by (by split). by injection Hrest as <- <-.
Qed.

(** X4. A list of lines written with [join("\n")] is read back unchanged by
    [split(/\r?\n/)], when the list is not empty and no line holds a line
    feed or ends with a carriage return. *)
Theorem split_join_lines (ls : list string) :
  ls ≠ [] →
  Forall plain_line ls →
  Js.split_lines (Js.join_lines ls) = ls.
Proof.
  intros Hne Hplain. induction Hplain as [|l ls [Hl Hend] Hplain IH]; [done|].
  destruct ls as [|l' ls].
  - by apply split_lines_one.
  - rewrite join_lines_cons, split_lines_line by done. by rewrite IH.
Qed.

Lemma split_join_lines_witness :
  Js.split_lines (Js.join_lines ["b@x.com"; "c@x.com"]) = ["b@x.com"; "c@x.com"].
Proof.
  apply (split_join_lines ["b@x.com"; "c@x.com"]); [done|].
  repeat constructor.
Defined.

(** ** The filter of the new e-mails *)

Lemma indexOf_from_first (pre l' : list string) (x : string) :
  ∀ i, Js.indexOf_from i (pre ++ x :: l') x = Z.of_nat (i + length pre)
       ↔ x ∉ pre.
Proof.
  induction pre as [|y pre IH]; intros i; cbn [app Js.indexOf_from length].
  - rewrite bool_decide_eq_true_2 by done. rewrite Nat.add_0_r.
    split; [intros _; apply not_elem_of_nil|done].
  - rewrite not_elem_of_cons. case_bool_decide as Hy.
    + split; [lia|]. by intros [? _].
    + rewrite <- IH. replace (i + S (length pre)) with (S i + length pre) by lia.
      split; [done|]. by intros [_ ?].
Qed.

Lemma keep_new_pass_from (sent seen : gset string) (l : list string) :
  ∀ pre acc,
    (∀ y, y ∈ acc ↔ y ∈ seen ∨ (y ∈ pre ∧ y ∉ sent)) →
    Js.filter_from
      (λ email i unfiltered,
         bool_decide (Js.indexOf unfiltered email = Z.of_nat i)
         && negb (Js.has sent email) && negb (Js.has seen email))
      (pre ++ l) (length pre) l
    = dedupe_pass sent acc l.
Proof.
  induction l as [|x l IH]; intros pre acc Hacc; [done|].
  cbn [Js.filter_from dedupe_pass]. unfold Js.indexOf, Js.has.
  pose proof (indexOf_from_first pre l x 0) as Hfirst. cbn [Nat.add] in Hfirst.
  specialize (IH (pre ++ [x])). rewrite <- app_assoc, length_app in IH.
  cbn [app length] in IH. rewrite Nat.add_1_r in IH.
  destruct (decide (x ∈ sent)) as [Hsent|Hsent];
    destruct (decide (x ∈ seen)) as [Hseen|Hseen];
    destruct (decide (x ∈ pre)) as [Hpre|Hpre];
    rewrite ?(bool_decide_eq_true_2 (x ∈ sent)), ?(bool_decide_eq_true_2 (x ∈ seen)),
      ?(bool_decide_eq_false_2 (x ∈ sent)), ?(bool_decide_eq_false_2 (x ∈ seen))
      by done;
    rewrite ?andb_false_r; cbn [negb andb].
  8: { rewrite (bool_decide_eq_true_2 _ (proj2 Hfirst Hpre)).
       rewrite bool_decide_eq_false_2
         by (rewrite (Hacc x); intros [H|[H|[H H']]]; done).
       f_equal. apply IH. intros y.
       rewrite elem_of_union, elem_of_singleton, (Hacc y), elem_of_app,
         list_elem_of_singleton.
       split; [intros [->|[H|[H H']]]; tauto|].
       intros [H|[[H| ->] H']]; tauto. }
  7: rewrite (bool_decide_eq_false_2 (_ = _))
       by (by rewrite Hfirst; intros ?).
  all: rewrite bool_decide_eq_true_2
         by (rewrite (Hacc x); tauto).
  all: apply IH; intros y; rewrite (Hacc y), elem_of_app, list_elem_of_singleton.
  all: split; [tauto|]; intros [H|[[H| ->] H']]; tauto.
Qed.

Lemma keep_new_as_pass (sent seen : gset string) (l : list string) :
  keep_new sent seen l = dedupe_pass sent seen l.
Proof.
  unfold keep_new, Js.filter.
  apply (keep_new_pass_from sent seen l [] seen).
  intros y. rewrite elem_of_nil. tauto.
Qed.

(** X5. The filter of the script, which looks every e-mail up in the whole
    batch with [indexOf], keeps exactly what one pass over the batch keeps
    that remembers in a set the e-mails it has kept. *)
Theorem keep_new_is_one_pass (sent seen : gset string) (l : list string) :
  keep_new sent seen l = dedupe_pass sent seen l.
Proof. apply keep_new_as_pass. Qed.

Lemma elem_of_dedupe_pass (sent : gset string) (l : list string) (e : string) :
  ∀ seen, e ∈ dedupe_pass sent seen l ↔ e ∈ l ∧ (e ∉ sent) ∧ (e ∉ seen).
Proof.
  induction l as [|x l IH]; intros seen; cbn [dedupe_pass].
  - rewrite elem_of_nil. tauto.
  - case_bool_decide as Hx.
    + rewrite IH, elem_of_cons. split; [tauto|].
      intros ([->|?] & ? & ?); tauto.
    + rewrite !elem_of_cons, IH, elem_of_union, elem_of_singleton.
      split.
      * intros [->|(H1 & H2 & H3)]; [split; [by left|tauto]|tauto].
      * intros ([->|H1] & H2 & H3); [by left|].
        destruct (decide (e = x)); [by left|right; tauto].
Qed.

Lemma NoDup_dedupe_pass (sent : gset string) (l : list string) :
  ∀ seen, NoDup (dedupe_pass sent seen l).
Proof.
  induction l as [|x l IH]; intros seen; cbn [dedupe_pass]; [constructor|].
  case_bool_decide; [apply IH|]. constructor; [|apply IH].
  rewrite elem_of_dedupe_pass, elem_of_union, elem_of_singleton. tauto.
Qed.

Lemma sublist_dedupe_pass (sent : gset string) (l : list string) :
  ∀ seen, sublist (dedupe_pass sent seen l) l.
Proof.
  induction l as [|x l IH]; intros seen; cbn [dedupe_pass]; [constructor|].
  case_bool_decide; [apply sublist_cons|apply sublist_skip]; apply IH.
Qed.

(** X6. No e-mail is written twice for one query: the e-mails kept for a
    batch are pairwise different. *)
Theorem keep_new_NoDup (sent seen : gset string) (l : list string) :
  NoDup (keep_new sent seen l).
Proof. rewrite keep_new_as_pass. apply NoDup_dedupe_pass. Qed.

(** X7. An e-mail is kept for a query exactly when it occurs in the batch,
    was not sent before and was not written for an earlier query: nothing
    new is lost. *)
Theorem keep_new_complete (sent seen : gset string) (l : list string)
    (e : string) :
  e ∈ keep_new sent seen l ↔ e ∈ l ∧ (e ∉ sent) ∧ (e ∉ seen).
Proof. rewrite keep_new_as_pass. apply elem_of_dedupe_pass. Qed.

(** X8. The e-mails kept for a query come in the order of the batch: they
    are a subsequence of it. *)
Theorem keep_new_sublist (sent seen : gset string) (l : list string) :
  sublist (keep_new sent seen l) l.
Proof. rewrite keep_new_as_pass. apply sublist_dedupe_pass. Qed.

Lemma dedupe_pass_app (sent : gset string) (l1 l2 : list string) :
  ∀ seen,
    dedupe_pass sent seen (l1 ++ l2)
    = dedupe_pass sent seen l1
      ++ dedupe_pass sent (add_all seen (dedupe_pass sent seen l1)) l2.
Proof.
  induction l1 as [|x l1 IH]; intros seen; cbn [app dedupe_pass]; [done|].
  case_bool_decide; [apply IH|].
  cbn [app]. f_equal. rewrite IH. do 2 f_equal.
  unfold add_all. cbn [foldl]. by rewrite (union_comm_L seen).
Qed.

(** X9. Deduplicating two batches one after the other, as for two queries,
    gives the same e-mails and leaves the same set as deduplicating the two
    batches as one. *)
Theorem Deduplicator_app (sent seen : gset string) (l1 l2 : list string) :
  Deduplicator sent (l1 ++ l2) seen
  = let '(out1, seen1) := Deduplicator sent l1 seen in
    let '(out2, seen2) := Deduplicator sent l2 seen1 in
    (out1 ++ out2, seen2).
Proof.
  unfold Deduplicator. rewrite !keep_new_as_pass, dedupe_pass_app.
  f_equal. unfold add_all. by rewrite foldl_app.
Qed.

(** ** Attempts, requests and delays of the retrying fetch *)

Lemma fetched_urls_app (tr1 tr2 : list Event) :
  fetched_urls (tr1 ++ tr2) = fetched_urls tr1 ++ fetched_urls tr2.
Proof. unfold fetched_urls. apply omap_app. Qed.

Lemma waited_app (tr1 tr2 : list Event) :
  waited (tr1 ++ tr2) = (waited tr1 + waited tr2)%N.
Proof.
  induction tr1 as [|ev tr1 IH]; [done|]. cbn [app waited foldr].
  fold (waited (tr1 ++ tr2)). fold (waited tr1). rewrite IH.
  destruct ev; lia.
Qed.

Lemma waited_wait (ms : nat) : waited [EWait ms] = N.of_nat ms.
Proof. unfold waited. cbn [foldr]. lia. Qed.

Lemma throttle_ms : N.of_nat 800 = 800%N.
Proof. by vm_compute. Qed.

Lemma backoff_ms : N.of_nat 5000 = 5000%N.
Proof. by vm_compute. Qed.

Lemma getPage_attempt (env : Env) (page n : nat) (query : string) (st : State) :
  let url := page_url_spec page query in
  (∃ pkgs, getPage env page query (S n) st
           = (Ok (alloc (next_ref st) pkgs), after_success url pkgs st))
  ∨ (∃ r, succeeds r = false
          ∧ getPage env page query (S n) st
            = getPage env page query n (after_failure url r st)).
Proof.
  intros url. subst url.
  destruct (net env (fetches st) (page_url_spec page query))
    as [msg|msg| |pkgs] eqn:Hnet.
  4: { left. exists pkgs. by apply getPage_S_success. }
  all: right; eexists; split;
    [|rewrite getPage_S_failure by (by rewrite Hnet); by rewrite Hnet]; done.
Qed.

Lemma after_failure_trace (url : string) (r : Response) (st : State) :
  fetches (after_failure url r st) = S (fetches st)
  ∧ fetched_urls (trace (after_failure url r st))
    = fetched_urls (trace st) ++ [url]
  ∧ (waited (trace st) + 5000 ≤ waited (trace (after_failure url r st)))%N
  ∧ (waited (trace (after_failure url r st)) ≤ waited (trace st) + 5800)%N.
Proof.
  unfold after_failure. cbn [fetches trace].
  destruct r; rewrite !fetched_urls_app, !waited_app, !waited_wait,
    ?throttle_ms, backoff_ms; cbn [fetched_urls omap waited foldr];
    rewrite ?app_nil_r; repeat split; lia.
Qed.

Lemma getPage_run (env : Env) (page : nat) (query : string) (retries : nat) :
  ∀ st,
    match getPage env page query retries st with
    | (r, st') =>
        fetched_urls (trace st')
        = fetched_urls (trace st)
          ++ replicate (fetches st' - fetches st) (page_url_spec page query)
        ∧ (waited (trace st') ≤ waited (trace st) + 5800 * N.of_nat retries)%N
        ∧ match r with
          | Ok _ => fetches st < fetches st' ≤ fetches st + retries
          | Throw e =>
              e = Error "retries over"
              ∧ fetches st' = fetches st + retries
              ∧ (waited (trace st) + 5000 * N.of_nat retries
                 ≤ waited (trace st'))%N
          end
    end.
Proof.
  induction retries as [|n IH]; intros st.
  - rewrite getPage_0, Nat.sub_diag. cbn [replicate].
    rewrite app_nil_r. repeat split; lia.
  - destruct (getPage_attempt env page n query st)
      as [(pkgs & ->)|(r & _ & ->)].
    + unfold after_success. cbn [fetches trace].
      rewrite !fetched_urls_app, !waited_app, waited_wait, throttle_ms.
      replace (S (fetches st) - fetches st) with 1 by lia.
      cbn [fetched_urls omap waited foldr replicate].
      rewrite app_nil_r. repeat split; lia.
    + specialize (IH (after_failure (page_url_spec page query) r st)).
      destruct (after_failure_trace (page_url_spec page query) r st)
        as (Hf & Hu & Hw1 & Hw2).
      destruct (getPage env page query n _) as [res st'].
      destruct IH as (Hurls & Hwait & Hres). rewrite Hf, Hu in *.
      assert (Hle : S (fetches st) ≤ fetches st') by (destruct res; lia).
      split; [|split].
      * rewrite Hurls, <- app_assoc. f_equal.
        replace (fetches st' - fetches st)
          with (S (fetches st' - S (fetches st))) by lia.
        done.
      * lia.
      * destruct res as [fetched|e]; [lia|].
        destruct Hres as (-> & -> & Hw). repeat split; lia.
Qed.

(** X10. Whatever the network does, [getPage] either returns after at least
    one and at most [retries] fetches, or throws after exactly [retries]
    fetches; the only error it throws is "retries over": the error of the
    failed fetch itself never reaches the caller. *)
Theorem getPage_attempts_any_network (env : Env) (page : nat) (query : string)
    (retries : nat) (st : State) :
  match getPage env page query retries st with
  | (Ok _, st') => fetches st < fetches st' ≤ fetches st + retries
  | (Throw e, st') =>
      e = Error "retries over" ∧ fetches st' = fetches st + retries
  end.
Proof.
  pose proof (getPage_run env page query retries st) as Hrun.
  destruct (getPage env page query retries st) as [[fetched|e] st'];
    destruct Hrun as (_ & _ & Hres); [done|]. by destruct Hres as (? & ? & _).
Qed.

(** X11. Every request [getPage] sends for a page goes to the URL of that
    page, the retries included, and the trace shows one request per
    attempt. *)
Theorem getPage_requests_one_url (env : Env) (page : nat) (query : string)
    (retries : nat) (st : State) :
  let st' := (getPage env page query retries st).2 in
  fetched_urls (trace st')
  = fetched_urls (trace st)
    ++ replicate (fetches st' - fetches st) (page_url_spec page query).
Proof.
  pose proof (getPage_run env page query retries st) as Hrun. cbv zeta.
  destruct (getPage env page query retries st) as [r st'].
  by destruct Hrun as (Hurls & _).
Qed.

(** X12. The delays [getPage] asks for add up to at most 5800 ms per unit
    of budget (800 ms after a response, 5000 ms after a failure), and to at
    least 5000 ms per unit when it gives up. *)
Theorem getPage_delays (env : Env) (page : nat) (query : string)
    (retries : nat) (st : State) :
  match getPage env page query retries st with
  | (r, st') =>
      (waited (trace st') ≤ waited (trace st) + 5800 * N.of_nat retries)%N
      ∧ match r with
        | Ok _ => True
        | Throw _ =>
            (waited (trace st) + 5000 * N.of_nat retries ≤ waited (trace st'))%N
        end
  end.
Proof.
  pose proof (getPage_run env page query retries st) as Hrun.
  destruct (getPage env page query retries st) as [[fetched|e] st'];
    destruct Hrun as (_ & Hwait & Hres); [done|]. by destruct Hres as (_ & _ & ?).
Qed.

(** ** Requests and delays of the page walk *)

Lemma progressed_same (env : Env) (completed : nat) (st : State) :
  fetches (progressed env completed st) = fetches st
  ∧ waited (trace (progressed env completed st)) = waited (trace st).
Proof.
  unfold progressed, report_progress.
  destruct (isatty env); cbn; rewrite waited_app; cbn; split; lia.
Qed.

Lemma getPackages_loop_run (env : Env) (query : string) (todo : nat) :
  ∀ i completed packages st,
    match getPackages_loop env query todo i completed packages st with
    | (r, st') =>
        (waited (trace st') ≤ waited (trace st) + 11600 * N.of_nat todo)%N
        ∧ fetches st' ≤ fetches st + 2 * todo
        ∧ match r with
          | Ok _ => fetches st + todo ≤ fetches st'
          | Throw e => e = Error "retries over"
          end
    end.
Proof.
  induction todo as [|todo IH]; intros i completed packages st.
  - cbn. repeat split; lia.
  - cbn [getPackages_loop]. bind_step.
    pose proof (getPage_run env i query 2 st) as Hpage.
    destruct (getPage env i query 2 st) as [[fetched|e] st1].
    + destruct Hpage as (_ & Hwait & Hf).
      bind_step. rewrite report_progress_run.
      destruct (progressed_same env (completed + 1) st1) as [Hpf Hpw].
      specialize (IH (i + 1) (completed + 1) (packages ++ fetched)
                    (progressed env (completed + 1) st1)).
      destruct (getPackages_loop _ _ _ _ _ _ _) as [r st'].
      destruct IH as (Hw & Hle & Hr). rewrite Hpf, Hpw in *.
      split; [lia|]. split; [lia|]. destruct r; [lia|done].
    + destruct Hpage as (_ & Hwait & -> & Hf & _).
      split; [lia|]. split; [lia|done].
Qed.

(** X13. For one query [getPackages] sends at least 40 and at most 80
    requests when it returns, never more than 80 when it throws, and asks
    for at most 464 seconds of delay; the only error it throws is "retries
    over". *)
Theorem getPackages_requests_and_delays (env : Env) (query : string)
    (st : State) :
  match getPackages env query st with
  | (r, st') =>
      (waited (trace st') ≤ waited (trace st) + 464000)%N
      ∧ fetches st' ≤ fetches st + 80
      ∧ match r with
        | Ok _ => fetches st + 40 ≤ fetches st'
        | Throw e => e = Error "retries over"
        end
  end.
Proof.
  unfold getPackages. bind_step. unfold console_log at 1, emit at 1.
  match goal with
  | |- context [getPackages_loop env query ?t ?i ?c ?p ?s] =>
      pose proof (getPackages_loop_run env query t i c p s) as Hloop;
      destruct (getPackages_loop env query t i c p s) as [r st']
  end.
  cbn [fetches trace] in Hloop. rewrite waited_app in Hloop.
  cbn [waited foldr] in Hloop. unfold PAGES_PER_QUERY in Hloop.
  destruct Hloop as (Hw & Hle & Hr).
  split; [lia|]. split; [lia|]. destruct r; [lia|done].
Qed.

(** ** The result of a run *)

Lemma getPackages_requests_and_delays_aux (env : Env) (query : string)
    (st : State) :
  match getPackages env query st with
  | (Ok _, _) => True
  | (Throw e, _) => e = Error "retries over"
  end.
Proof.
  unfold getPackages. bind_step. unfold console_log at 1, emit at 1.
  match goal with
  | |- context [getPackages_loop env query ?t ?i ?c ?p ?s] =>
      pose proof (getPackages_loop_run env query t i c p s) as Hloop;
      destruct (getPackages_loop env query t i c p s) as [[pk|e] st']
  end; [done|]. by destruct Hloop as (_ & _ & ?).
Qed.

Lemma NoDup_keep_new_aux (sent seen : gset string) (packages : list PackageObj) :
  NoDup (newEmails_of sent seen packages).
Proof.
  unfold newEmails_of. rewrite keep_new_as_pass. apply NoDup_dedupe_pass.
Qed.

Lemma elem_of_keep_new_aux (sent seen : gset string)
    (packages : list PackageObj) (e : string) :
  e ∈ newEmails_of sent seen packages → e ≠ "" ∧ (e ∉ sent) ∧ (e ∉ seen).
Proof. apply newEmails_of_fresh. Qed.

Lemma size_add_all_new (seen : gset string) (newEmails : list string) :
  NoDup newEmails → (∀ e, e ∈ newEmails → e ∉ seen) →
  size (add_all seen newEmails) = size seen + length newEmails.
Proof.
  intros Hnodup Hnew. rewrite add_all_union, size_union.
  - by rewrite size_list_to_set.
  - apply elem_of_disjoint. intros e Hseen Hin.
    apply elem_of_list_to_set in Hin. by apply (Hnew e).
Qed.

Lemma last_fmap_cons {A B} (f : A → B) (x : A) (l : list A) (y : B) :
  last (f <$> l) = Some y → last (f <$> x :: l) = Some y.
Proof. destruct l as [|x' l]; [done|]. by rewrite !fmap_cons, last_cons_cons. Qed.

Lemma main_loop_result (env : Env) (sent : gset string) (queries : list string) :
  ∀ seen all st,
    match main_loop env sent queries seen all st with
    | (Ok (seen', _, written), st') =>
        ∃ outs, outputs (trace st') = outputs (trace st) ++ outs
                ∧ outs.*1 = output_file <$> queries
                ∧ size seen' = size seen + lines_written outs
                ∧ match written with
                  | Fulfilled =>
                      failed_writes (trace st') = failed_writes (trace st)
                  | Rejected e =>
                      ∃ file, e = write_error file
                              ∧ failed_writes (trace st')
                                = failed_writes (trace st) ++ [file]
                              ∧ last (outs.*1) = Some file
                  end
    | (Throw e, st') =>
        ∃ outs, outputs (trace st') = outputs (trace st) ++ outs
                ∧ length outs < length queries
                ∧ ((e = Error "retries over"
                    ∧ failed_writes (trace st') = failed_writes (trace st))
                   ∨ ∃ file, e = write_error file
                             ∧ failed_writes (trace st')
                               = failed_writes (trace st) ++ [file]
                             ∧ last (outs.*1) = Some file)
    end.
Proof.
  induction queries as [|query queries IH]; intros seen all st.
  - exists []. cbn. by rewrite app_nil_r, Nat.add_0_r.
  - pose proof (quiet_outputs _ (quiet_getPackages env query) st) as Hquiet.
    pose proof (quiet_failed_writes _ (quiet_getPackages env query) st) as Hfail.
    pose proof (getPackages_requests_and_delays_aux env query st) as Herr.
    destruct (getPackages env query st) as [[packages|e] st1] eqn:Hget;
      cbn in Hquiet, Hfail.
    + rewrite (main_loop_step _ _ _ _ _ _ _ _ _ Hget). cbv zeta.
      set (newEmails := newEmails_of sent seen packages).
      assert (Hst2 : ∀ ok,
                outputs (trace (write_requested OUT_PATH (output_file query)
                                  newEmails ok st1))
                = outputs (trace st) ++ [(output_file query, newEmails)]).
      { intros ok. cbn [write_requested trace].
        by rewrite outputs_snoc, Hquiet. }
      assert (Hsize : size (add_all seen newEmails)
                      = size seen + length newEmails).
      { apply size_add_all_new; [apply NoDup_keep_new_aux|].
        intros e He. by apply elem_of_keep_new_aux in He as (_ & _ & ?). }
      destruct (disk env (writes st1)).
      * specialize (IH (add_all seen newEmails)
                      (add_all all (ref <$> packages))
                      (write_requested OUT_PATH (output_file query) newEmails
                         true st1)).
        assert (Hf2 : failed_writes
                        (trace (write_requested OUT_PATH (output_file query)
                                  newEmails true st1))
                      = failed_writes (trace st)).
        { cbn [write_requested trace].
          by rewrite failed_writes_snoc, Hfail, app_nil_r. }
        rewrite Hf2 in IH.
        destruct (main_loop _ _ _ _ _ _) as [[[[seen' all'] written]|e] st'].
        -- destruct IH as (outs & Hout & Hfiles & Hsz & Hw).
           exists ((output_file query, newEmails) :: outs).
           rewrite Hout, Hst2, <- app_assoc. split; [done|].
           split; [cbn; by rewrite Hfiles|].
           split; [unfold lines_written in *; cbn; lia|].
           destruct written as [|err]; [done|].
           destruct Hw as (file & -> & Hfw & Hlast). exists file.
           split; [done|]. split; [done|]. by apply last_fmap_cons.
        -- destruct IH as (outs & Hout & Hlen & Hcause).
           exists ((output_file query, newEmails) :: outs).
           rewrite Hout, Hst2, <- app_assoc. split; [done|].
           split; [cbn; lia|].
           destruct Hcause as [[-> Hfw]|(file & -> & Hfw & Hlast)];
             [by left|right].
           exists file. split; [done|]. split; [done|]. by apply last_fmap_cons.
      * assert (Hf2 : failed_writes
                        (trace (write_requested OUT_PATH (output_file query)
                                  newEmails false st1))
                      = failed_writes (trace st) ++ [output_file query]).
        { cbn [write_requested trace]. by rewrite failed_writes_snoc, Hfail. }
        destruct queries as [|next rest].
        -- exists [(output_file query, newEmails)]. rewrite Hst2.
           split; [done|]. split; [done|].
           split; [unfold lines_written; cbn; lia|].
           exists (output_file query). by rewrite Hf2.
        -- exists [(output_file query, newEmails)].
           unfold awaiting_first_response. cbn [trace].
           rewrite !outputs_snoc, !failed_writes_snoc, !app_nil_r, Hst2, Hf2.
           split; [done|]. split; [cbn; lia|]. right.
           by exists (output_file query).
    + rewrite (main_loop_failure _ _ _ _ _ _ _ _ _ Hget).
      exists []. rewrite app_nil_r, Hquiet.
      split; [done|]. split; [cbn; lia|]. left. by split.
Qed.

Lemma run_result (env : Env) :
  ∃ r st,
    run env = (r, st)
    ∧ match r with
      | Ok s =>
          (outputs (trace st)).*1 = output_file <$> loaded_queries env
          ∧ files s = length (loaded_queries env)
          ∧ new_emails s = lines_written (outputs (trace st))
          ∧ failed_writes (trace st) = []
      | Throw e =>
          is_Some (readFile env QUERIES_FILE_NAME) →
          is_Some (readFile env SENT_EMAILS_FILE_NAME) →
          (e = Error "retries over"
           ∧ failed_writes (trace st) = []
           ∧ length (outputs (trace st)) < length (loaded_queries env))
          ∨ (∃ file, e = write_error file
                     ∧ failed_writes (trace st) = [file]
                     ∧ last ((outputs (trace st)).*1) = Some file)
      end.
Proof.
  unfold run, main, loaded_queries, read_lines.
  destruct (readFile env QUERIES_FILE_NAME) as [queries|];
    [|eexists _, _; split; [reflexivity|]; by intros [? [=]]].
  bind_step. cbn [mret M_ret].
  destruct (readFile env SENT_EMAILS_FILE_NAME) as [sent|];
    [|eexists _, _; split; [reflexivity|]; by intros _ [? [=]]].
  bind_step. cbn [mret M_ret]. bind_step.
  unfold console_log at 1, emit at 1. bind_step.
  match goal with
  | |- context [main_loop env ?x ?qs ?seen ?all ?st] =>
      pose proof (main_loop_result env x qs seen all st) as Hloop;
      destruct (main_loop env x qs seen all st)
        as [[[[seen' all'] written]|e] st1]
  end.
  - destruct Hloop as (outs & Hout & Hfiles & Hsize & Hw). cbn in Hout, Hw.
    bind_step. unfold console_log at 1, emit at 1. cbn [mret M_ret].
    rewrite size_empty in Hsize.
    destruct written as [|err].
    + eexists _, _. split; [reflexivity|]. cbn [trace files new_emails].
      by rewrite outputs_snoc, failed_writes_snoc, !app_nil_r, Hout, Hw.
    + destruct Hw as (file & -> & Hfw & Hlast).
      eexists _, _. split; [reflexivity|]. intros _ _. right. exists file.
      cbn [trace].
      by rewrite outputs_snoc, failed_writes_snoc, !app_nil_r, Hout, Hfw.
  - destruct Hloop as (outs & Hout & Hlen & Hcause). cbn in Hout, Hcause.
    eexists _, _. split; [reflexivity|]. intros _ _. rewrite Hout.
    destruct Hcause as [[-> Hfw]|(file & -> & Hfw & Hlast)]; [by left|right].
    by exists file.
Qed.

(** X14. A run that completes has asked for one write per query, in the
    order of the queries, to the file [{query}_new_emails.txt]; the number of
    files of the closing message is the number of queries. *)
Theorem run_writes_one_file_per_query (env : Env) (s : Summary) :
  (run env).1 = Ok s →
  (outputs (trace (run env).2)).*1 = output_file <$> loaded_queries env
  ∧ files s = length (loaded_queries env).
Proof.
  intros Hrun. destruct (run_result env) as (r & st & Heq & Hres).
  rewrite Heq in *. cbn in Hrun. subst r. by destruct Hres as (? & ? & _).
Qed.

Lemma run_writes_one_file_per_query_witness :
  (outputs (trace (run two_queries).2)).*1
  = ["foo_new_emails.txt"; "bar_new_emails.txt"]
  ∧ 2 = length (loaded_queries two_queries).
Proof.
  apply (run_writes_one_file_per_query two_queries
           {| new_emails := 3; files := 2; unique_packages := 4 |}).
  by vm_compute.
Defined.



(** X16. In a run that completes, the number the closing message gives for
    the unique packages is the number of package objects decoded from the
    responses: two records of one package count twice. *)
Theorem run_counts_decoded_objects (env : Env) (s : Summary) :
  (run env).1 = Ok s →
  unique_packages s = next_ref (run env).2.
Proof.
  intros Hrun. destruct (run env) as [r st] eqn:Heq. cbn in Hrun. subst r.
  by apply (unique_packages_is_object_count env).
Qed.

Lemma run_counts_decoded_objects_witness :
  4 = next_ref (run two_queries).2.
Proof.
  apply (run_counts_decoded_objects two_queries
           {| new_emails := 3; files := 2; unique_packages := 4 |}).
  by vm_compute.
Defined.

(** X17. When the input files can be read, a run ends with an error in
    one of two ways. Either a page could not be fetched: the error is
    "retries over", no write has failed, and that query and the ones after
    it get no output file. Or a write failed: the error is the error of that
    write, which is the only write that failed and the last one the run asked
    for. Either way the writes the run asked for are those of the first
    queries, in their order. *)
Theorem run_abort_causes (env : Env) (e : Exn) :
  (run env).1 = Throw e →
  is_Some (readFile env QUERIES_FILE_NAME) →
  is_Some (readFile env SENT_EMAILS_FILE_NAME) →
  ((e = Error "retries over"
    ∧ failed_writes (trace (run env).2) = []
    ∧ length (outputs (trace (run env).2)) < length (loaded_queries env))
   ∨ (∃ file, e = write_error file
              ∧ failed_writes (trace (run env).2) = [file]
              ∧ last ((outputs (trace (run env).2)).*1) = Some file))
  ∧ (outputs (trace (run env).2)).*1
    = output_file <$> take (length (outputs (trace (run env).2)))
                        (loaded_queries env).
Proof.
  intros Hrun Hq Hs. pose proof (run_outputs_files env) as Hfiles.
  destruct (run_result env) as (r & st & Heq & Hres).
  rewrite Heq in *. cbn in Hrun. subst r. split; [|exact Hfiles].
  exact (Hres Hq Hs).
Qed.

Lemma run_abort_causes_witness :
  ((Error "retries over" = Error "retries over"
    ∧ failed_writes (trace (run second_query_offline).2) = []
    ∧ length (outputs (trace (run second_query_offline).2))
      < length (loaded_queries second_query_offline))
   ∨ (∃ file, Error "retries over" = write_error file
              ∧ failed_writes (trace (run second_query_offline).2) = [file]
              ∧ last ((outputs (trace (run second_query_offline).2)).*1)
                = Some file))
  ∧ (outputs (trace (run second_query_offline).2)).*1
    = output_file <$> take (length (outputs (trace (run second_query_offline).2)))
                        (loaded_queries second_query_offline).
Proof.
  apply (run_abort_causes second_query_offline (Error "retries over")).
  - by vm_compute.
  - by eexists.
  - by eexists.
Defined.

(** The two ways a run ends with an error, on two worlds. *)
Example two_ways_to_abort :
  (run second_query_offline).1 = Throw (Error "retries over")
  ∧ (outputs (trace (run second_query_offline).2)).*1 = ["foo_new_emails.txt"]
  ∧ (run first_write_fails).1 = Throw (write_error "foo_new_emails.txt")
  ∧ (outputs (trace (run first_write_fails).2)).*1 = ["foo_new_emails.txt"].
Proof.
  split; [by vm_compute|]. split; [by vm_compute|]. split; by vm_compute.
Qed.

(** ** Escaping a description for HTML *)

Lemma replace_all_app (c : Ascii.ascii) (replacement s1 s2 : string) :
  replace_all c replacement (s1 +:+ s2)
  = replace_all c replacement s1 +:+ replace_all c replacement s2.
Proof.
  induction s1 as [|a s1 IH]; [done|].
  rewrite string_app_cons. cbn [replace_all]. rewrite IH.
  case_bool_decide; [by rewrite string_app_assoc|done].
Qed.

Lemma escapeHTML_app_aux (s1 s2 : string) :
  escapeHTML (s1 +:+ s2) = escapeHTML s1 +:+ escapeHTML s2.
Proof. unfold escapeHTML. by rewrite !replace_all_app. Qed.

Lemma escapeHTML_char (c : Ascii.ascii) :
  escapeHTML (String c "") = escape_char c.
Proof.
  unfold escapeHTML, escape_char. cbn [replace_all].
  case_bool_decide; [done|]. cbn [replace_all].
  case_bool_decide; [done|]. cbn [replace_all].
  case_bool_decide; [done|]. cbn [replace_all].
  case_bool_decide; [done|]. cbn [replace_all].
  by case_bool_decide.
Qed.

Lemma escapeHTML_as_map (s : string) : escapeHTML s = escape_map s.
Proof.
  induction s as [|c s IH]; [done|].
  change (String c s) with (String c "" +:+ s).
  by rewrite escapeHTML_app_aux, escapeHTML_char, IH.
Qed.

(** X18. The five replacements of [escapeHTML], made one after the other on
    the whole string, give what one pass gives that replaces every character
    by its entity: no replacement touches the entities written by an earlier
    one, since [&] is replaced first. *)
Theorem escapeHTML_is_one_pass (s : string) : escapeHTML s = escape_map s.
Proof. apply escapeHTML_as_map. Qed.

(** X19. [escapeHTML] distributes over concatenation: escaping the parts of
    a text and joining them is escaping the text. *)
Theorem escapeHTML_app (s1 s2 : string) :
  escapeHTML (s1 +:+ s2) = escapeHTML s1 +:+ escapeHTML s2.
Proof. apply escapeHTML_app_aux. Qed.

Lemma count_char_app (c : Ascii.ascii) (s1 s2 : string) :
  count_char c (s1 +:+ s2) = count_char c s1 + count_char c s2.
Proof.
  induction s1 as [|a s1 IH]; [done|].
  rewrite string_app_cons. cbn [count_char]. rewrite IH. lia.
Qed.

Lemma count_char_escape_char (c a : Ascii.ascii) :
  c = LT ∨ c = GT ∨ c = QUOT ∨ c = APOS →
  count_char c (escape_char a) = 0.
Proof.
  intros Hc. unfold escape_char.
  repeat (case_bool_decide; [by destruct Hc as [-> | [-> | [-> | ->]]]|]).
  cbn [count_char]. rewrite bool_decide_eq_false_2; [done|].
  intros ->. by destruct Hc as [-> | [-> | [-> | ->]]].
Qed.

(** X20. The escaped text holds no [<], [>], double quote or apostrophe. *)
Theorem escapeHTML_no_markup (s : string) (c : Ascii.ascii) :
  c = LT ∨ c = GT ∨ c = QUOT ∨ c = APOS →
  count_char c (escapeHTML s) = 0.
Proof.
  intros Hc. rewrite escapeHTML_as_map.
  induction s as [|a s IH]; [done|]. cbn [escape_map].
  by rewrite count_char_app, count_char_escape_char, IH.
Qed.

Lemma escapeHTML_no_markup_witness :
  escapeHTML ("<b>R&D</b>") = "&lt;b&gt;R&amp;D&lt;/b&gt;"
  ∧ count_char LT (escapeHTML ("<b>R&D</b>")) = 0.
Proof.
  split; [reflexivity|].
  apply (escapeHTML_no_markup "<b>R&D</b>" LT). by left.
Defined.

Lemma escape_char_cases (c : Ascii.ascii) :
  (c = AMP ∧ escape_char c = "&amp;")
  ∨ (c = LT ∧ escape_char c = "&lt;")
  ∨ (c = GT ∧ escape_char c = "&gt;")
  ∨ (c = QUOT ∧ escape_char c = "&quot;")
  ∨ (c = APOS ∧ escape_char c = "&#039;")
  ∨ (c ≠ AMP ∧ c ≠ LT ∧ c ≠ GT ∧ c ≠ QUOT ∧ c ≠ APOS
     ∧ escape_char c = String c "").
Proof.
  unfold escape_char.
  case_bool_decide; [by left|]. right.
  case_bool_decide; [by left|]. right.
  case_bool_decide; [by left|]. right.
  case_bool_decide; [by left|]. right.
  case_bool_decide; [by left|]. right. done.
Qed.

Lemma escape_map_inj (s1 : string) :
  ∀ s2, escape_map s1 = escape_map s2 → s1 = s2.
Proof.
  induction s1 as [|a s1 IH]; intros [|b s2]; cbn [escape_map].
  - done.
  - destruct (escape_char_cases b)
      as [[_ ->]|[[_ ->]|[[_ ->]|[[_ ->]|[[_ ->]|(_ & _ & _ & _ & _ & ->)]]]]];
      discriminate.
  - destruct (escape_char_cases a)
      as [[_ ->]|[[_ ->]|[[_ ->]|[[_ ->]|[[_ ->]|(_ & _ & _ & _ & _ & ->)]]]]];
      discriminate.
  - destruct (escape_char_cases a)
      as [[-> ->]|[[-> ->]|[[-> ->]|[[-> ->]|[[-> ->]|(Ha1 & Ha2 & Ha3 & Ha4 & Ha5 & ->)]]]]];
    destruct (escape_char_cases b)
      as [[-> ->]|[[-> ->]|[[-> ->]|[[-> ->]|[[-> ->]|(Hb1 & Hb2 & Hb3 & Hb4 & Hb5 & ->)]]]]];
    rewrite ?string_app_cons, ?string_app_nil; intros Heq;
    try discriminate Heq;
    simplify_eq; try congruence; f_equal; by apply IH.
Qed.

(** X21. [escapeHTML] loses nothing: two different texts never have the
    same escaped text. *)
Theorem escapeHTML_inj (s1 s2 : string) :
  escapeHTML s1 = escapeHTML s2 → s1 = s2.
Proof. rewrite !escapeHTML_as_map. apply escape_map_inj. Qed.

Lemma escapeHTML_inj_witness : "a<b" = "a<b".
Proof. apply (escapeHTML_inj "a<b" "a<b"). reflexivity. Defined.

Lemma count_special_app (s1 s2 : string) :
  count_special (s1 +:+ s2) = count_special s1 + count_special s2.
Proof. unfold count_special. rewrite !count_char_app. lia. Qed.

Lemma count_special_escape_char (c : Ascii.ascii) :
  count_special (escape_char c) = count_special (String c "").
Proof.
  destruct (escape_char_cases c)
    as [[-> ->]|[[-> ->]|[[-> ->]|[[-> ->]|[[-> ->]|(_ & _ & _ & _ & _ & ->)]]]]];
    reflexivity.
Qed.

Lemma count_special_escape_map (s : string) :
  count_special (escape_map s) = count_special s.
Proof.
  induction s as [|c s IH]; [done|]. cbn [escape_map].
  change (String c s) with (String c "" +:+ s).
  by rewrite !count_special_app, count_special_escape_char, IH.
Qed.

Lemma string_length_app (s1 s2 : string) :
  String.length (s1 +:+ s2) = String.length s1 + String.length s2.
Proof.
  induction s1 as [|a s1 IH]; [done|].
  rewrite string_app_cons. cbn [String.length]. by rewrite IH.
Qed.

Lemma escape_char_length (c : Ascii.ascii) :
  1 + 3 * count_special (String c "") ≤ String.length (escape_char c).
Proof.
  destruct (escape_char_cases c)
    as [[-> ->]|[[-> ->]|[[-> ->]|[[-> ->]|[[-> ->]|(H1 & H2 & H3 & H4 & H5 & ->)]]]]];
    try (vm_compute; lia).
  unfold count_special. cbn [count_char String.length].
  rewrite !bool_decide_eq_false_2 by done. lia.
Qed.

Lemma escape_map_length (s : string) :
  String.length s + 3 * count_special s ≤ String.length (escape_map s).
Proof.
  induction s as [|c s IH]; [done|]. cbn [escape_map].
  rewrite string_length_app. pose proof (escape_char_length c) as Hc.
  change (String c s) with (String c "" +:+ s) at 2.
  rewrite count_special_app. cbn [String.length]. lia.
Qed.

Lemma escape_map_plain (s : string) :
  count_special s = 0 → escape_map s = s.
Proof.
  induction s as [|c s IH]; [done|].
  change (String c s) with (String c "" +:+ s) at 1.
  rewrite count_special_app. intros Hcount. cbn [escape_map].
  rewrite IH by lia.
  destruct (escape_char_cases c)
    as [[-> _]|[[-> _]|[[-> _]|[[-> _]|[[-> _]|(_ & _ & _ & _ & _ & ->)]]]]];
    try (exfalso; revert Hcount; vm_compute; lia).
  reflexivity.
Qed.

(** X22. The escaped text is never shorter than the text, three characters
    longer at least for every character that has an entity; escaping an
    escaped text again changes it, except when the text holds none of the
    five characters, in which case escaping changes nothing. *)
Theorem escapeHTML_twice (s : string) :
  String.length s + 3 * count_special s ≤ String.length (escapeHTML s)
  ∧ (escapeHTML (escapeHTML s) = escapeHTML s ↔ count_special s = 0)
  ∧ (escapeHTML s = s ↔ count_special s = 0).
Proof.
  rewrite !escapeHTML_as_map. split; [apply escape_map_length|].
  assert (Hfix : ∀ t, escape_map t = t ↔ count_special t = 0).
  { intros t. split; [|apply escape_map_plain].
    intros Heq. pose proof (escape_map_length t) as Hlen.
    rewrite Heq in Hlen. lia. }
  split; [|apply Hfix].
  rewrite Hfix. by rewrite count_special_escape_map.
Qed.

(** ** The URLs of the pages *)

(** X23. Two different pages of a query are never fetched from the same
    URL, as long as the offsets [page * 250] are numbers the script computes
    exactly (up to [Number.MAX_SAFE_INTEGER]): there the URL of a page
    determines the page. The 40 pages of the walk are far below the
    bound. *)
Theorem pageURL_inj (p1 p2 : nat) (q : string) :
  exact_offset p1 → exact_offset p2 →
  pageURL p1 q = pageURL p2 q → p1 = p2.
Proof.
  intros _ _. rewrite !pageURL_ok. unfold page_url_spec. intros [= Heq].
  repeat apply (inj (String.app _)) in Heq.
  apply (inj pretty) in Heq. lia.
Qed.

Lemma pageURL_inj_witness : exact_offset 3 ∧ 3 = 3.
Proof.
  assert (Hexact : exact_offset 3) by (by vm_compute).
  split; [exact Hexact|].
  apply (pageURL_inj 3 3 "js" Hexact Hexact). reflexivity.
Defined.

Lemma exact_offset_walk (page : nat) :
  page < PAGES_PER_QUERY → exact_offset page.
Proof. unfold exact_offset, MAX_SAFE_INTEGER, PAGES_PER_QUERY. lia. Qed.

(** ** The script that lists the top packages *)

Lemma quiet_top_read_objects (r : Response) : quiet (TopPackages.read_objects r).
Proof. intros st. by destruct r. Qed.

Lemma quiet_top_getPage (env : Env) (page retries : nat) :
  quiet (TopPackages.getPage env page retries).
Proof.
  induction retries as [|n IH]; cbn [TopPackages.getPage]; [apply quiet_throw|].
  apply quiet_try_catch.
  - apply quiet_bind; [apply quiet_liftR|]. intros url.
    apply quiet_bind; [apply quiet_fetch|]. intros request.
    apply quiet_top_read_objects.
  - intros err. apply quiet_bind; [by apply quiet_emit|]. intros _. exact IH.
Qed.

Lemma top_getPage_error (env : Env) (page retries : nat) :
  ∀ st,
    match TopPackages.getPage env page retries st with
    | (Ok _, _) => True
    | (Throw e, _) => e = Error "retries over"
    end.
Proof.
  induction retries as [|n IH]; intros st; [done|].
  cbn [TopPackages.getPage]. unfold try_catch.
  match goal with
  | |- context [match ?m st with _ => _ end] =>
      destruct (m st) as [[fetched|e] st1]
  end; [done|].
  bind_step. unfold console_log at 1, emit at 1. apply IH.
Qed.

Lemma top_fetch_loop_keeps_nothing (env : Env) (todo : nat) :
  ∀ i completed packages st,
    match TopPackages.fetch_loop env todo i completed packages st with
    | (Ok all, st') =>
        all = packages ∧ outputs (trace st') = outputs (trace st)
    | (Throw e, st') =>
        e = Error "retries over" ∧ outputs (trace st') = outputs (trace st)
    end.
Proof.
  induction todo as [|todo IH]; intros i completed packages st; [done|].
  cbn [TopPackages.fetch_loop]. bind_step.
  pose proof (quiet_outputs _ (quiet_top_getPage env i 2) st) as Hquiet.
  pose proof (top_getPage_error env i 2 st) as Herr.
  destruct (TopPackages.getPage env i 2 st) as [[fetched|e] st1];
    cbn in Hquiet; [|done].
  bind_step. rewrite report_progress_run.
  pose proof (quiet_outputs _ (quiet_report_progress env (completed + 1)) st1)
    as Hprog.
  rewrite report_progress_run in Hprog. cbn in Hprog.
  specialize (IH (i + 1) (completed + 1) packages
                (progressed env (completed + 1) st1)).
  destruct (TopPackages.fetch_loop _ _ _ _ _ _) as [[all|e] st'];
    destruct IH as [? Hout]; (split; [done|]); by rewrite Hout, Hprog.
Qed.

Lemma top_remainder_over_cap :
  TopPackages.buildURL 0 (TopPackages.expected - 0)
  = Throw (Error "Max > 250 - the registry can't handle more than this.").
Proof. by vm_compute. Qed.

(** X24. The script that lists the top packages never completes and never
    writes a file. Its loop keeps the packages of a page in a variable of the
    loop body, so the list of the script stays empty; the script then asks
    [buildURL] for the 10000 packages that are missing, which is above the
    cap of 250: whatever the network does, the script ends with the error
    "Max > 250" or, when a page cannot be fetched, with "retries over". *)
Theorem top_packages_never_completes (json_stringify : list Package → string)
    (sha256_hex : string → string) (env : Env) (st : State) :
  ∃ e st',
    TopPackages.main json_stringify sha256_hex env st = (Throw e, st')
    ∧ (e = Error "retries over"
       ∨ e = Error "Max > 250 - the registry can't handle more than this.")
    ∧ outputs (trace st') = outputs (trace st).
Proof.
  unfold TopPackages.main. bind_step.
  pose proof (top_fetch_loop_keeps_nothing env TopPackages.requestAmount 0 0 [] st)
    as Hloop.
  destruct (TopPackages.fetch_loop env _ 0 0 [] st) as [[packages|e] st1].
  - destruct Hloop as [-> Hout]. bind_step.
    rewrite bool_decide_eq_true_2 by (by vm_compute).
    bind_step. unfold liftR at 1. cbn [length].
    rewrite top_remainder_over_cap.
    eexists _, _. split; [reflexivity|]. split; [by right|done].
  - destruct Hloop as [-> Hout].
    eexists _, _. split; [reflexivity|]. split; [by left|done].
Qed.

(** ** The script for one fixed query *)

Lemma split_on_LF_nonempty (s : string) : SingleQuery.split_on_LF s ≠ [].
Proof.
  destruct s as [|c rest]; [done|]. cbn [SingleQuery.split_on_LF].
  case_bool_decide; [done|]. by destruct (SingleQuery.split_on_LF rest).
Qed.

Lemma join_split_on_LF (s : string) :
  Js.join_lines (SingleQuery.split_on_LF s) = s.
Proof.
  induction s as [|c rest IH]; [done|]. cbn [SingleQuery.split_on_LF].
  pose proof (split_on_LF_nonempty rest) as Hne.
  destruct (SingleQuery.split_on_LF rest) as [|seg segs]; [done|].
  case_bool_decide as Hc.
  - rewrite join_lines_cons, IH. by rewrite Hc.
  - by rewrite join_lines_push, IH.
Qed.

Lemma split_on_LF_no_CR (s : string) :
  count_char Js.CR s = 0 → SingleQuery.split_on_LF s = Js.split_lines s.
Proof.
  induction s as [|rest IH|rest IH|c rest Hc Hcr IH] using split_lines_ind.
  - done.
  - cbn [count_char]. rewrite bool_decide_eq_false_2 by apply LF_neq_CR.
    intros Hcount. rewrite split_lines_LF. cbn [SingleQuery.split_on_LF].
    rewrite bool_decide_eq_true_2 by done. by rewrite IH.
  - cbn [count_char]. by rewrite bool_decide_eq_true_2.
  - cbn [count_char]. intros Hcount.
    destruct (split_lines_char c rest Hc Hcr) as (seg & segs & Hrest & ->).
    cbn [SingleQuery.split_on_LF]. rewrite (bool_decide_eq_false_2 _ Hc).
    rewrite IH, Hrest by lia. done.
Qed.

(** X25. The plain [split("\n")] of the one-query script is undone exactly by
    [join("\n")], carriage returns included; on a content without carriage
    return it gives the same segments as the [split(/\r?\n/)] of index.ts. *)
Theorem split_on_LF_round_trip (s : string) :
  Js.join_lines (SingleQuery.split_on_LF s) = s
  ∧ (count_char Js.CR s = 0 → SingleQuery.split_on_LF s = Js.split_lines s).
Proof. split; [apply join_split_on_LF|apply split_on_LF_no_CR]. Qed.

Lemma split_on_LF_round_trip_witness :
  Js.join_lines
    (SingleQuery.split_on_LF ("a" +:+ String Js.CR Js.newline +:+ "b"))
  = "a" +:+ String Js.CR Js.newline +:+ "b"
  ∧ SingleQuery.split_on_LF ("a" +:+ Js.newline +:+ "b")
    = Js.split_lines ("a" +:+ Js.newline +:+ "b").
Proof.
  split.
  - apply (split_on_LF_round_trip ("a" +:+ String Js.CR Js.newline +:+ "b")).
  - apply (split_on_LF_round_trip ("a" +:+ Js.newline +:+ "b")). reflexivity.
Defined.

Lemma filter_from_ext {A} (f g : A → nat → list A → bool) (whole l : list A) :
  (∀ x i, f x i whole = g x i whole) →
  ∀ i, Js.filter_from f whole i l = Js.filter_from g whole i l.
Proof.
  intros Hfg. induction l as [|x l IH]; intros i; [done|].
  cbn [Js.filter_from]. by rewrite Hfg, !IH.
Qed.

Lemma keep_unsent_keep_new (sent : gset string) (l : list string) :
  SingleQuery.keep_unsent sent l = keep_new sent ∅ l.
Proof.
  unfold SingleQuery.keep_unsent, keep_new, Js.filter.
  apply filter_from_ext. intros x i. unfold Js.has at 3.
  rewrite (bool_decide_eq_false_2 (x ∈ ∅)) by apply not_elem_of_empty.
  by rewrite andb_true_r.
Qed.

(** X26. The filter of the one-query script is the filter of index.ts with
    an empty [newEmailsSet]: it keeps an e-mail exactly when it occurs in
    the batch and is not a sent e-mail, once, in the order of the batch. *)
Theorem keep_unsent_spec (sent : gset string) (l : list string) (e : string) :
  SingleQuery.keep_unsent sent l = keep_new sent ∅ l
  ∧ NoDup (SingleQuery.keep_unsent sent l)
  ∧ sublist (SingleQuery.keep_unsent sent l) l
  ∧ (e ∈ SingleQuery.keep_unsent sent l ↔ e ∈ l ∧ e ∉ sent).
Proof.
  rewrite keep_unsent_keep_new, keep_new_as_pass.
  split; [done|]. split; [apply NoDup_dedupe_pass|].
  split; [apply sublist_dedupe_pass|].
  rewrite elem_of_dedupe_pass. split; [tauto|].
  intros [? ?]. repeat split; [done..|apply not_elem_of_empty].
Qed.

Lemma alike_ret {A} (a : A) : alike (mret a : M A) (mret a).
Proof. by intros st1 st2 Hs. Qed.

Lemma alike_throw {A} (e : Exn) : alike (throw e : M A) (throw e).
Proof. by intros st1 st2 Hs. Qed.

Lemma alike_liftR {A} (r : Result A) : alike (liftR r) (liftR r).
Proof. by intros st1 st2 Hs. Qed.

Lemma alike_bind {A B} (m1 m2 : M A) (k1 k2 : A → M B) :
  alike m1 m2 → (∀ a, alike (k1 a) (k2 a)) → alike (m1 ≫= k1) (m2 ≫= k2).
Proof.
  intros Hm Hk st1 st2 Hs. unfold mbind, M_bind.
  destruct (Hm st1 st2 Hs) as [Hr Hs'].
  destruct (m1 st1) as [[a1|e1] st1'], (m2 st2) as [[a2|e2] st2'];
    cbn in Hr, Hs'; try discriminate Hr.
  - injection Hr as <-. by apply Hk.
  - injection Hr as <-. by split.
Qed.

Lemma alike_try_catch {A} (m1 m2 : M A) (h1 h2 : Exn → M A) :
  alike m1 m2 → (∀ e, alike (h1 e) (h2 e)) →
  alike (try_catch m1 h1) (try_catch m2 h2).
Proof.
  intros Hm Hh st1 st2 Hs. unfold try_catch.
  destruct (Hm st1 st2 Hs) as [Hr Hs'].
  destruct (m1 st1) as [[a1|e1] st1'], (m2 st2) as [[a2|e2] st2'];
    cbn in Hr, Hs'; try discriminate Hr.
  - by split.
  - injection Hr as <-. by apply Hh.
Qed.

Lemma alike_emit (ev1 ev2 : Event) : alike (emit ev1) (emit ev2).
Proof. by intros st1 st2 Hs. Qed.

Lemma alike_fetch (env : Env) (url : string) :
  alike (fetch env url) (fetch env url).
Proof.
  intros st1 st2 [Hf Hn]. unfold fetch. cbv zeta. rewrite Hf.
  destruct (net env (fetches st2) url); cbn; (split; [done|]);
    split; cbn; congruence.
Qed.

Lemma alike_read_objects (r : Response) :
  alike (read_objects r) (read_objects r).
Proof.
  intros st1 st2 [Hf Hn]. destruct r; cbn; try done.
  rewrite Hn. split; [done|]. split; cbn; congruence.
Qed.

Lemma alike_report_progress (env : Env) (completed : nat) :
  alike (report_progress env completed) (report_progress env completed).
Proof. unfold report_progress. destruct (isatty env); apply alike_emit. Qed.

Lemma single_query_pageURL (page : nat) :
  SingleQuery.pageURL page = pageURL page "js".
Proof. reflexivity. Qed.

Lemma alike_getPage (env : Env) (page retries : nat) :
  alike (SingleQuery.getPage env page retries) (getPage env page "js" retries).
Proof.
  induction retries as [|n IH]; cbn [SingleQuery.getPage getPage];
    [apply alike_throw|].
  apply alike_try_catch.
  - rewrite single_query_pageURL.
    apply alike_bind; [apply alike_liftR|]. intros url.
    apply alike_bind; [apply alike_fetch|]. intros request.
    apply alike_bind; [apply alike_emit|]. intros _.
    apply alike_read_objects.
  - intros err. apply alike_bind; [apply alike_emit|]. intros _.
    apply alike_bind; [apply alike_emit|]. intros _. exact IH.
Qed.

Lemma alike_fetch_loop (env : Env) (todo : nat) :
  ∀ i completed packages,
    alike (SingleQuery.fetch_loop env todo i completed packages)
          (getPackages_loop env "js" todo i completed packages).
Proof.
  induction todo as [|todo IH]; intros i completed packages;
    cbn [SingleQuery.fetch_loop getPackages_loop]; [apply alike_ret|].
  apply alike_bind; [apply alike_getPage|]. intros fetched.
  apply alike_bind; [apply alike_report_progress|]. intros _. apply IH.
Qed.

Lemma quiet_single_getPage (env : Env) (page retries : nat) :
  quiet (SingleQuery.getPage env page retries).
Proof.
  induction retries as [|n IH]; cbn [SingleQuery.getPage]; [apply quiet_throw|].
  apply quiet_try_catch.
  - apply quiet_bind; [apply quiet_liftR|]. intros url.
    apply quiet_bind; [apply quiet_fetch|]. intros request.
    apply quiet_bind; [by apply quiet_emit|]. intros _.
    apply quiet_read_objects.
  - intros err. apply quiet_bind; [by apply quiet_emit|]. intros _.
    apply quiet_bind; [by apply quiet_emit|]. intros _. exact IH.
Qed.

Lemma quiet_single_fetch_loop (env : Env) (todo : nat) :
  ∀ i completed packages,
    quiet (SingleQuery.fetch_loop env todo i completed packages).
Proof.
  induction todo as [|todo IH]; intros i completed packages;
    cbn [SingleQuery.fetch_loop]; [apply quiet_ret|].
  apply quiet_bind; [apply quiet_single_getPage|]. intros fetched.
  apply quiet_bind; [apply quiet_report_progress|]. intros _. apply IH.
Qed.

Lemma extends_quiet {A} (m : M A) : quiet m → extends m.
Proof. intros Hq st. exists []. by rewrite app_nil_r, (quiet_outputs _ Hq). Qed.

Lemma extends_bind {A B} (m : M A) (k : A → M B) :
  extends m → (∀ a, extends (k a)) → extends (m ≫= k).
Proof.
  intros Hm Hk st. unfold mbind, M_bind. destruct (Hm st) as [more Hmore].
  destruct (m st) as [[a|e] st1]; cbn in Hmore; [|by exists more].
  destruct (Hk a st1) as [more' Hmore']. exists (more ++ more').
  by rewrite Hmore', Hmore, app_assoc.
Qed.

Lemma extends_deno_writeFile (env : Env) (dir file content : string) :
  extends (TopPackages.deno_writeFile env dir file content).
Proof.
  intros st. unfold TopPackages.deno_writeFile. cbv zeta.
  exists [(file, [content])]. destruct (disk env (writes st)); cbn;
    by rewrite outputs_snoc.
Qed.

Lemma index_run_js (env : Env) (content : string) :
  readFile env QUERIES_FILE_NAME = Some "js" →
  readFile env SENT_EMAILS_FILE_NAME = Some content →
  ∃ st1,
    same_net init st1
    ∧ outputs (trace (run env).2)
      = match (getPackages_loop env "js" PAGES_PER_QUERY 0 0 [] st1).1 with
        | Ok packages =>
            [(output_file "js",
              newEmails_of (list_to_set (Js.split_lines content)) ∅ packages)]
        | Throw _ => []
        end.
Proof.
  intros Hq Hs. unfold run, main, read_lines. rewrite Hq, Hs.
  bind_step. cbn [mret M_ret]. bind_step. cbn [mret M_ret]. bind_step.
  unfold console_log at 1, emit at 1. bind_step.
  change (Js.split_lines "js") with ["js"]. cbn [main_loop]. bind_step.
  unfold getPackages. bind_step. unfold console_log at 1, emit at 1.
  match goal with
  | |- context [getPackages_loop env "js" ?t ?i ?c ?p ?s] =>
      exists s; split; [done|];
      pose proof (quiet_outputs _ (quiet_getPackages_loop env "js" t i c p) s)
        as Hquiet;
      destruct (getPackages_loop env "js" t i c p s) as [[packages|e] st2]
  end; cbn in Hquiet.
  - bind_step. unfold writeFile at 1. cbv zeta.
    destruct (disk env (writes st2)); cbn [mret M_ret];
      bind_step; unfold console_log at 1, emit at 1, throw;
      cbn [mret M_ret trace fst snd];
      by rewrite !outputs_snoc, !app_nil_r, Hquiet.
  - done.
Qed.

Lemma extends_writeFile {A} (env : Env) (dir file : string)
    (lines : list string) (k : Promise → M A) :
  (∀ written, extends (k written)) →
  extends (writeFile env dir file lines ≫= k).
Proof.
  intros Hk st. unfold mbind, M_bind, writeFile. cbv zeta.
  match goal with
  | |- context [k ?w ?s] => destruct (Hk w s) as [more ->]
  end.
  exists ((file, lines) :: more). cbn [trace].
  by rewrite outputs_snoc, <- app_assoc.
Qed.

Lemma single_query_run (json_stringify : list Package → string)
    (sha256_hex : string → string) (env : Env) (content : string) :
  readFile env SingleQuery.sentEmailsFileName = Some content →
  ∃ st0,
    same_net init st0
    ∧ head (outputs (trace (SingleQuery.main json_stringify sha256_hex env init).2))
      = match (SingleQuery.fetch_loop env SingleQuery.requestAmount 0 0 [] st0).1 with
        | Ok packages =>
            Some ("new_emails.txt",
                  SingleQuery.keep_unsent
                    (list_to_set (SingleQuery.split_on_LF content))
                    (Js.flatMap (λ pkg, getEmailsFromPackage (val pkg)) packages))
        | Throw _ => None
        end.
Proof.
  intros Hs. unfold SingleQuery.main. rewrite Hs.
  bind_step. cbn [mret M_ret]. bind_step.
  unfold console_log at 1, emit at 1. bind_step.
  match goal with
  | |- context [SingleQuery.fetch_loop env ?t ?i ?c ?p ?s] =>
      exists s; split; [done|];
      pose proof (quiet_outputs _ (quiet_single_fetch_loop env t i c p) s)
        as Hquiet;
      destruct (SingleQuery.fetch_loop env t i c p s) as [[packages|e] st2]
  end; cbn in Hquiet.
  - bind_step. unfold writeFile at 1. cbv zeta.
    match goal with
    | |- context [outputs (trace (?m ?s).2)] =>
        assert (Hext : extends m);
        [|destruct (Hext s) as [more ->]]
    end.
    { apply extends_bind.
      - destruct (disk env (writes st2)); [apply extends_quiet, quiet_ret|].
        apply extends_writeFile. intros _. apply extends_quiet, quiet_throw.
      - intros _.
        apply extends_bind; [apply extends_deno_writeFile|]. intros _.
        apply extends_bind; [apply extends_deno_writeFile|]. intros _.
        apply extends_bind; [apply extends_deno_writeFile|]. intros _.
        apply extends_bind.
        + apply extends_quiet.
          case_bool_decide; [apply quiet_ret|by apply quiet_emit].
        + intros _. apply extends_quiet. by apply quiet_emit. }
    cbn [trace fst]. by rewrite outputs_snoc, Hquiet.
  - cbn. by rewrite Hquiet.
Qed.

(** X27. With the one query "js", index.ts writes the e-mails that the
    one-query script writes to [data/new_emails.txt]: on the same network,
    with the same list of sent e-mails without carriage return in the file
    each script reads, the first write request of the two runs holds the
    same e-mails, and neither run writes when a page cannot be fetched. *)
Theorem single_query_same_emails (json_stringify : list Package → string)
    (sha256_hex : string → string) (env : Env) (content : string) :
  readFile env QUERIES_FILE_NAME = Some "js" →
  readFile env SENT_EMAILS_FILE_NAME = Some content →
  readFile env SingleQuery.sentEmailsFileName = Some content →
  count_char Js.CR content = 0 →
  snd <$> head (outputs (trace (SingleQuery.main json_stringify sha256_hex
                                  env init).2))
  = snd <$> head (outputs (trace (run env).2)).
Proof.
  intros Hq Hs Hs' Hcr.
  destruct (index_run_js env content Hq Hs) as (st1 & Hst1 & ->).
  destruct (single_query_run json_stringify sha256_hex env content Hs')
    as (st0 & Hst0 & ->).
  assert (Hsame : same_net st0 st1).
  { unfold same_net in *. destruct Hst0, Hst1. split; congruence. }
  destruct (alike_fetch_loop env PAGES_PER_QUERY 0 0 [] st0 st1 Hsame)
    as [Hr _].
  change SingleQuery.requestAmount with PAGES_PER_QUERY. rewrite Hr.
  destruct (getPackages_loop env "js" PAGES_PER_QUERY 0 0 [] st1).1
    as [packages|e]; [|done].
  cbn [head fmap option_fmap option_map snd]. f_equal.
  by rewrite keep_unsent_keep_new, split_on_LF_no_CR.
Qed.

Lemma single_query_same_emails_witness :
  snd <$> head (outputs (trace (SingleQuery.main (λ _, "") (λ _, "")
                                  only_js init).2))
  = snd <$> head (outputs (trace (run only_js).2))
  ∧ snd <$> head (outputs (trace (run only_js).2))
    = Some ["b@x.com"; "c@x.com"].
Proof.
  split; [|by vm_compute].
  apply (single_query_same_emails (λ _, "") (λ _, "") only_js
           ("a@x.com" +:+ Js.newline +:+ "z@x.com")); reflexivity.
Defined.

Lemma single_getPage_error (env : Env) (page retries : nat) :
  ∀ st,
    match SingleQuery.getPage env page retries st with
    | (Ok _, _) => True
    | (Throw e, _) => e = Error "retries over"
    end.
Proof.
  induction retries as [|n IH]; intros st; [done|].
  cbn [SingleQuery.getPage]. unfold try_catch.
  match goal with
  | |- context [match ?m st with _ => _ end] =>
      destruct (m st) as [[fetched|e] st1]
  end; [done|].
  bind_step. unfold wait at 1, emit at 1. bind_step.
  unfold console_log at 1, emit at 1. apply IH.
Qed.

Lemma single_fetch_loop_error (env : Env) (todo : nat) :
  ∀ i completed packages st,
    match SingleQuery.fetch_loop env todo i completed packages st with
    | (Ok _, _) => True
    | (Throw e, _) => e = Error "retries over"
    end.
Proof.
  induction todo as [|todo IH]; intros i completed packages st; [done|].
  cbn [SingleQuery.fetch_loop]. bind_step.
  pose proof (single_getPage_error env i 2 st) as Herr.
  destruct (SingleQuery.getPage env i 2 st) as [[fetched|e] st1]; [|done].
  bind_step. rewrite report_progress_run. apply IH.
Qed.

Lemma returns_writing_bind {A B} (m : M A) (k : A → M B)
    (files1 files2 : list string) :
  returns_writing m files1 → (∀ a, returns_writing (k a) files2) →
  returns_writing (m ≫= k) (files1 ++ files2).
Proof.
  intros Hm Hk st. unfold mbind, M_bind.
  destruct (Hm st) as (a & Hr & Hout).
  destruct (m st) as [r st1]. cbn in Hr, Hout. subst r.
  destruct (Hk a st1) as (b & Hr' & Hout').
  exists b. split; [done|]. by rewrite Hout', Hout, app_assoc.
Qed.

Lemma returns_writing_emit (ev : Event) :
  outputs [ev] = [] → returns_writing (emit ev) [].
Proof.
  intros Hev st. exists tt. split; [done|]. cbn.
  by rewrite outputs_snoc, Hev, !app_nil_r.
Qed.

Lemma returns_writing_ret {A} (a : A) : returns_writing (mret a : M A) [].
Proof. intros st. exists a. by rewrite app_nil_r. Qed.

Lemma returns_writing_deno_writeFile (env : Env) (dir file content : string) :
  (∀ k, disk env k = true) →
  returns_writing (TopPackages.deno_writeFile env dir file content) [file].
Proof.
  intros Hdisk st. exists tt. unfold TopPackages.deno_writeFile. cbv zeta.
  rewrite Hdisk. split; [done|]. cbn.
  by rewrite outputs_snoc, fmap_app.
Qed.

Lemma single_query_outcomes_aux (json_stringify : list Package → string)
    (sha256_hex : string → string) (env : Env) (content : string) :
  readFile env SingleQuery.sentEmailsFileName = Some content →
  (∀ k, disk env k = true) →
  ∃ r st,
    SingleQuery.main json_stringify sha256_hex env init = (r, st)
    ∧ ((r = Ok tt
        ∧ (outputs (trace st)).*1
          = ["new_emails.txt"; "raw.json"; "raw.json.hash"; "PACKAGES.md"])
       ∨ (r = Throw (Error "retries over") ∧ outputs (trace st) = [])).
Proof.
  intros Hs Hdisk. unfold SingleQuery.main. rewrite Hs.
  bind_step. cbn [mret M_ret]. bind_step.
  unfold console_log at 1, emit at 1. bind_step.
  match goal with
  | |- context [SingleQuery.fetch_loop env ?t ?i ?c ?p ?s] =>
      pose proof (quiet_outputs _ (quiet_single_fetch_loop env t i c p) s)
        as Hquiet;
      pose proof (single_fetch_loop_error env t i c p s) as Herr;
      destruct (SingleQuery.fetch_loop env t i c p s) as [[packages|e] st2]
  end; cbn in Hquiet.
  - bind_step. unfold writeFile at 1. cbv zeta. rewrite Hdisk.
    match goal with
    | |- context [?m ?s = _] =>
        assert (Htail : returns_writing m
                  ([] ++ ["raw.json"] ++ ["raw.json.hash"] ++ ["PACKAGES.md"]
                   ++ [] ++ []));
        [|destruct (Htail s) as ([] & Hr & Hout);
          destruct (m s) as [r3 st3]]
    end.
    { apply returns_writing_bind; [apply returns_writing_ret|]. intros _.
      apply returns_writing_bind; [by apply returns_writing_deno_writeFile|].
      intros _.
      apply returns_writing_bind; [by apply returns_writing_deno_writeFile|].
      intros _.
      apply returns_writing_bind; [by apply returns_writing_deno_writeFile|].
      intros _. apply returns_writing_bind.
      - case_bool_decide; [apply returns_writing_ret|].
        by apply returns_writing_emit.
      - intros _. by apply returns_writing_emit. }
    cbn in Hr, Hout. subst r3. eexists _, _. split; [reflexivity|]. left.
    split; [done|]. by rewrite Hout, outputs_snoc, Hquiet.
  - subst e. eexists _, _. split; [reflexivity|]. right. by rewrite Hquiet.
Qed.

(** X28. On a disk that takes every write, the one-query script either stops
    with "retries over" before it has asked for any write, or completes
    after it has asked for four writes, in this order: [new_emails.txt],
    [raw.json], [raw.json.hash], [PACKAGES.md]. The assertion on the number
    of packages only logs: fewer than 10000 packages do not stop the
    script. *)
Theorem single_query_outcomes (json_stringify : list Package → string)
    (sha256_hex : string → string) (env : Env) (content : string) :
  readFile env SingleQuery.sentEmailsFileName = Some content →
  (∀ k, disk env k = true) →
  let r := SingleQuery.main json_stringify sha256_hex env init in
  (r.1 = Ok tt
   ∧ (outputs (trace r.2)).*1
     = ["new_emails.txt"; "raw.json"; "raw.json.hash"; "PACKAGES.md"])
  ∨ (r.1 = Throw (Error "retries over") ∧ outputs (trace r.2) = []).
Proof.
  intros Hs Hdisk. cbv zeta.
  destruct (single_query_outcomes_aux json_stringify sha256_hex env content
              Hs Hdisk) as (r & st & -> & Hres).
  exact Hres.
Qed.

Lemma single_query_outcomes_witness :
  let r := SingleQuery.main (λ _, "") (λ _, "") only_js init in
  (r.1 = Ok tt
   ∧ (outputs (trace r.2)).*1
     = ["new_emails.txt"; "raw.json"; "raw.json.hash"; "PACKAGES.md"])
  ∨ (r.1 = Throw (Error "retries over") ∧ outputs (trace r.2) = []).
Proof.
  apply (single_query_outcomes (λ _, "") (λ _, "") only_js
           ("a@x.com" +:+ Js.newline +:+ "z@x.com")); reflexivity.
Defined.
